(** * Progressive perfect squares: a shallow embedding of [main.cpp]

    The program enumerates triples [(a, b, c)], maps each to the candidate
    [c²a³b + cb²], keeps the candidates below the bound that pass the
    perfect-square classifier in a deduplicating set, and finally prints the
    roots and the sum.

    Modelling conventions:
    - [i64] values are [Z]; every machine operation is written with its
      two's-complement wrap-around ([I64.add], [I64.mul]).  Signed overflow
      is undefined in C++, so a second, checked evaluation ([I64.checked_add],
      [I64.checked_mul]) returns [None] exactly when an operation leaves the
      64-bit range.
    - [size_t] values are [Z] reduced modulo [2^64].
    - [std::bitset<n>] is a [Z] read with [Z.testbit] and written with
      [Z.lor] and [Z.shiftl].
    - [double] is [spec_float], the IEEE-754 binary64 specification of the
      standard library ([prec = 53], [emax = 1024]); [sqrt] is the correctly
      rounded [SFsqrt].
    - [std::unordered_set<i64>] is [gset Z]; its unspecified iteration order
      is a parameter [iter] of [main].
    - the unbounded inner loop takes fuel and returns [None] when it runs
      out. *)

From Stdlib Require Import ZArith Lia Bool List.
From Stdlib Require Import Floats.SpecFloat.
From stdpp Require Import gmap list strings pretty.
Local Open Scope Z_scope.

(** ** Machine integers *)

Module I64.
Definition MIN : Z := - 2 ^ 63.
Definition MAX : Z := 2 ^ 63 - 1.

Definition in_range (z : Z) : bool := (MIN <=? z) && (z <=? MAX).

(** Reduction of an exact result to the signed 64-bit representative. *)
Definition wrap (z : Z) : Z := (z + 2 ^ 63) mod 2 ^ 64 - 2 ^ 63.

Definition add (x y : Z) : Z := wrap (x + y).
Definition mul (x y : Z) : Z := wrap (x * y).

(** The same operations, failing on overflow. *)
Definition checked_add (x y : Z) : option Z :=
  if in_range (x + y) then Some (x + y) else None.
Definition checked_mul (x y : Z) : option Z :=
  if in_range (x * y) then Some (x * y) else None.
End I64.

(** Conversion of an integer to [size_t] (64 bits, unsigned). *)
Definition to_size_t (z : Z) : Z := z mod 2 ^ 64.

(** ** Binary64 floating point *)

Module Double.
Definition prec : Z := 53.
Definition emax : Z := 1024.

(** [static_cast<double>(n)]: round to nearest, ties to even. *)
Definition of_i64 (n : Z) : spec_float := binary_normalize prec emax n 0 false.

(** [sqrt(x)], correctly rounded. *)
Definition sqrt (x : spec_float) : spec_float := SFsqrt prec emax x.

(** [static_cast<i64>(x)]: truncation toward zero.  The conversion of a
    NaN, an infinity or an out-of-range value is undefined in C++; the
    model returns what the x86-64 conversion instruction does, [I64.MIN]. *)
Definition to_i64 (x : spec_float) : Z :=
  match x with
  | S754_zero _ => 0
  | S754_finite s m e =>
      let t := Z.shiftl (Zpos m) e in
      let v := if s then - t else t in
      if I64.in_range v then v else I64.MIN
  | _ => I64.MIN
  end.
End Double.

(** ** Bounded [for] loops

    [for (i = lo; i < hi; ++i) s = body i s]. *)
Definition for_range {S : Type} (lo hi : Z) (body : Z -> S -> S) (s : S) : S :=
  foldl (fun acc i => body i acc) s (seqZ lo (hi - lo)).

(** ** The perfect-square classifier *)

(** [quadratic_residues_mod<n>()]: the loop variable [i] is a [size_t], so
    [i*i] is reduced modulo [2^64] before [% n]. *)
Definition quadratic_residues_mod (n : Z) : Z :=
  for_range 0 n
    (fun i residues => Z.lor residues (Z.shiftl 1 (to_size_t (i * i) mod n)))
    0.

Definition MODULUS : Z := 64.

Definition quadratic_residues : Z := quadratic_residues_mod MODULUS.

(** [is_perfect_square(n)]: in [n % MODULUS] the signed [n] is converted to
    [size_t] first. *)
Definition is_perfect_square (n : Z) : bool :=
  if negb (Z.testbit quadratic_residues (to_size_t n mod MODULUS)) then false
  else
    let root := Double.to_i64 (Double.sqrt (Double.of_i64 n)) in
    I64.mul root root =? n.

(** The root check [root*root] with overflow detection. *)
Definition root_check_checked (n : Z) : option Z :=
  let root := Double.to_i64 (Double.sqrt (Double.of_i64 n)) in
  I64.checked_mul root root.

(** ** The candidate generator *)

(** [c*c*a*a*a*b + c*b*b], evaluated left to right in [i64]. *)
Definition compute_candidate (a b c : Z) : Z :=
  I64.add
    (I64.mul (I64.mul (I64.mul (I64.mul (I64.mul c c) a) a) a) b)
    (I64.mul (I64.mul c b) b).

(** The same evaluation, [None] as soon as one operation overflows. *)
Definition compute_candidate_checked (a b c : Z) : option Z :=
  cc ← I64.checked_mul c c;
  cca ← I64.checked_mul cc a;
  ccaa ← I64.checked_mul cca a;
  ccaaa ← I64.checked_mul ccaa a;
  lhs ← I64.checked_mul ccaaa b;
  cb ← I64.checked_mul c b;
  rhs ← I64.checked_mul cb b;
  I64.checked_add lhs rhs.

(** The closed form [n = c²a³b + cb²] over the integers. *)
Definition candidate_value (a b c : Z) : Z := c ^ 2 * a ^ 3 * b + c * b ^ 2.

(** The constants of [main]. *)
Definition BOUND : Z := 1000000000000.
Definition A_LIMIT : Z := 10000.

(** [for (i64 c = 1; ; c += 1) { n = ...; if (n >= Bound) break;
    if (is_perfect_square(n)) sols.insert(n); }], started at [c]. *)
Fixpoint c_loop (Bound : Z) (fuel : nat) (a b c : Z) (sols : gset Z)
  : option (gset Z) :=
  match fuel with
  | O => None
  | S fuel' =>
      let n := compute_candidate a b c in
      if Bound <=? n then Some sols
      else c_loop Bound fuel' a b (I64.add c 1)
             (if is_perfect_square n then {[ n ]} ∪ sols else sols)
  end.

(** [for (b = 1; b < a; ++b)] around the inner loop. *)
Definition b_loop (Bound : Z) (fuel : nat) (a : Z) (acc : option (gset Z))
  : option (gset Z) :=
  for_range 1 a (fun b acc => acc ≫= c_loop Bound fuel a b 1) acc.

(** The enumeration of [main], with the bound and the limit of [a] as
    parameters; [main] runs [search BOUND A_LIMIT]. *)
Definition search (Bound Alimit : Z) (fuel : nat) : option (gset Z) :=
  for_range 1 Alimit (b_loop Bound fuel) (Some ∅).

(** ** Aggregation and reporting *)

(** [std::accumulate(first, last, 0ll)] in [long long]. *)
Definition accumulate (l : list Z) (init : Z) : Z :=
  foldl I64.add init l.

Definition endl : string := String (Ascii.ascii_of_nat 10) EmptyString.

(** [std::cout << (i64)sqrt(sol) << std::endl] *)
Definition print_root (out : string) (sol : Z) : string :=
  out +:+ pretty (Double.to_i64 (Double.sqrt (Double.of_i64 sol))) +:+ endl.

(** What [main] writes once the enumeration has produced [sols], iterated
    in the order [order]. *)
Definition report (order : list Z) : string :=
  let out := foldl print_root EmptyString order in
  let out := out +:+ endl in
  out +:+ pretty (accumulate order 0) +:+ endl.

(** [main]: standard output and exit status. *)
Definition main (iter : gset Z -> list Z) (fuel : nat) : option (string * Z) :=
  sols ← search BOUND A_LIMIT fuel;
  Some (report (iter sols), 0).

(** ** Specification vocabulary *)

Definition is_square (n : Z) : Prop := exists k, n = k * k.

(** The values of [c] the inner loop reaches for a pair [(a, b)]: it starts
    at 1 and goes on after each candidate below the bound. *)
Inductive reached_c (Bound a b : Z) : Z -> Prop :=
  | reached_first : reached_c Bound a b 1
  | reached_next c :
      reached_c Bound a b c ->
      compute_candidate a b c < Bound ->
      reached_c Bound a b (I64.add c 1).

(** The states [(c, sols)] at the head of the inner loop for a pair
    [(a, b)] entered with the set [sols0]: one step of the loop body after
    each candidate below the bound. *)
Inductive inner_state (Bound a b : Z) (sols0 : gset Z) : Z -> gset Z -> Prop :=
  | inner_first : inner_state Bound a b sols0 1 sols0
  | inner_next c sols :
      inner_state Bound a b sols0 c sols ->
      compute_candidate a b c < Bound ->
      inner_state Bound a b sols0 (I64.add c 1)
        (if is_perfect_square (compute_candidate a b c)
         then {[ compute_candidate a b c ]} ∪ sols else sols).

(** A solution set the program holds at some point of the enumeration: at
    the head of the inner loop for some [(a, b, c)], after the loops for the
    smaller [a] and, for this [a], for the smaller [b] have completed. *)
Definition during (Bound Alimit : Z) (sols : gset Z) : Prop :=
  exists fuel a b c sa sb,
    1 <= b < a /\ a < Alimit /\
    search Bound a fuel = Some sa /\
    for_range 1 b (fun b acc => acc ≫= c_loop Bound fuel a b 1) (Some sa)
      = Some sb /\
    inner_state Bound a b sb c sols.

(** The invariant of the solution set. *)
Definition sols_inv (Bound : Z) (sols : gset Z) : Prop :=
  forall n, n ∈ sols ->
    (exists a b c, a > b /\ b >= 1 /\ c >= 1 /\
       n = c ^ 2 * a ^ 3 * b + c * b ^ 2) /\
    is_square n /\ n < Bound.

(** Exact sum of a list of integers. *)
Definition sumZ (l : list Z) : Z := foldr Z.add 0 l.

(** A text made of the given lines, each ended by a newline. *)
Definition unlines (ls : list string) : string :=
  foldr (fun l rest => l +:+ endl +:+ rest) EmptyString ls.

(** The text the standard-output contract asks for: a line with the root of
    each solution, a blank line, a line with the sum. *)
Definition expected_output (order : list Z) (total : Z) : string :=
  unlines (map (fun sol => pretty (Z.sqrt sol)) order
           ++ [EmptyString; pretty total]).

(** * Proofs *)

(** ** Binary64: the truncated square root of a small integer is exact *)

Section DoubleFacts.
Import Double.

Lemma digits2_pos_size p : digits2_pos p = Pos.size p.
Proof. induction p; simpl; congruence. Qed.

Lemma Zdigits2_log2 m : 0 < m -> Zdigits2 m = Z.log2 m + 1.
Proof.
  destruct m as [|p|p]; try lia. intros _. simpl Zdigits2.
  rewrite digits2_pos_size. destruct p; simpl; lia.
Qed.

Lemma Zdigits2_eq m d : 0 < d -> 2 ^ (d - 1) <= m < 2 ^ d -> Zdigits2 m = d.
Proof.
  intros Hd Hm. assert (0 < 2 ^ (d - 1)) by (apply Z.pow_pos_nonneg; lia).
  rewrite Zdigits2_log2 by lia.
  rewrite (Z.log2_unique m (d - 1)); try lia.
  replace (Z.succ (d - 1)) with d by lia. lia.
Qed.

Lemma iter_xO m d : Zpos (Pos.iter xO m d) = Zpos m * 2 ^ Zpos d.
Proof.
  induction d using Pos.peano_ind.
  - simpl Pos.iter. rewrite Z.pow_1_r. lia.
  - rewrite Pos.iter_succ, Pos2Z.inj_succ, Z.pow_succ_r by lia.
    rewrite Pos2Z.inj_xO, IHd. lia.
Qed.

Lemma shr_fexp_canonical m e l :
  fexp prec emax (Zdigits2 m + e) <= e ->
  shr_fexp prec emax m e l = (shr_record_of_loc m l, e).
Proof.
  intros H. unfold shr_fexp, shr.
  destruct (fexp prec emax (Zdigits2 m + e) - e) eqn:E; try reflexivity. lia.
Qed.

Lemma shr_m_of_loc m l : shr_m (shr_record_of_loc m l) = m.
Proof. destruct l as [|[]]; reflexivity. Qed.

Lemma loc_of_shr_record_of_loc m l : loc_of_shr_record (shr_record_of_loc m l) = l.
Proof. destruct l as [|[]]; reflexivity. Qed.

(** Rounding a mantissa that already has 53 digits: no shift happens, the
    location only decides between [m] and [m + 1]. *)
Lemma binary_round_aux_normal m e l :
  2 ^ 52 <= m < 2 ^ 53 -> -1074 <= e <= 971 ->
  round_nearest_even m l < 2 ^ 53 ->
  binary_round_aux prec emax false m e l =
    S754_finite false (Z.to_pos (round_nearest_even m l)) e.
Proof.
  intros Hm He Hr.
  assert (Hge : m <= round_nearest_even m l).
  { destruct l as [|[]]; simpl; try lia. destruct (Z.even m); lia. }
  unfold binary_round_aux.
  rewrite shr_fexp_canonical.
  2:{ rewrite (Zdigits2_eq m 53) by lia. unfold fexp, emin, prec, emax. lia. }
  rewrite shr_m_of_loc, loc_of_shr_record_of_loc.
  rewrite shr_fexp_canonical.
  2:{ rewrite (Zdigits2_eq _ 53) by lia. unfold fexp, emin, prec, emax. lia. }
  rewrite shr_m_of_loc.
  destruct (round_nearest_even m l) as [|p|p] eqn:E; try lia.
  unfold prec, emax. destruct (Z.leb_spec e (1024 - 53)); [reflexivity | lia].
Qed.

Lemma of_i64_normal n :
  0 < n < 2 ^ 53 ->
  of_i64 n = S754_finite false (Z.to_pos (n * 2 ^ (52 - Z.log2 n))) (Z.log2 n - 52).
Proof.
  intros Hn. destruct n as [|p|p]; try lia.
  pose proof (Z.log2_spec (Zpos p) ltac:(lia)) as Hl.
  pose proof (Z.log2_nonneg (Zpos p)) as Hl0.
  assert (Hl53 : Z.log2 (Zpos p) < 53) by (apply Z.log2_lt_pow2; lia).
  set (d := Z.log2 (Zpos p)) in *.
  assert (Hd : Zpos (digits2_pos p) = d + 1).
  { change (Zpos (digits2_pos p)) with (Zdigits2 (Zpos p)). apply Zdigits2_log2. lia. }
  assert (Hm : 2 ^ 52 <= Zpos p * 2 ^ (52 - d) < 2 ^ 53).
  { replace (2 ^ 52) with (2 ^ d * 2 ^ (52 - d)) by (rewrite <- Z.pow_add_r by lia; f_equal; lia).
    replace (2 ^ 53) with (2 ^ Z.succ d * 2 ^ (52 - d)) by (rewrite <- Z.pow_add_r by lia; f_equal; lia).
    assert (0 < 2 ^ (52 - d)) by (apply Z.pow_pos_nonneg; lia). nia. }
  unfold of_i64, binary_normalize, binary_round, shl_align.
  rewrite Hd. unfold fexp, emin, prec, emax.
  replace (Z.max (d + 1 + 0 - 53) (3 - 1024 - 53) - 0) with (d - 52) by lia.
  replace (Z.max (d + 1 + 0 - 53) (3 - 1024 - 53)) with (d - 52) by lia.
  destruct (d - 52) as [|k|k] eqn:E; try lia.
  - replace (52 - d) with 0 in * by lia. rewrite Z.pow_0_r, Z.mul_1_r in *.
    change 53 with prec. change 1024 with emax.
    rewrite binary_round_aux_normal; simpl round_nearest_even; [reflexivity | lia ..].
  - change 53 with prec. change 1024 with emax.
    assert (Hk : Zpos (Pos.iter xO p k) = Zpos p * 2 ^ (52 - d)).
    { rewrite iter_xO. f_equal. f_equal. lia. }
    rewrite binary_round_aux_normal; simpl round_nearest_even; rewrite ?Hk; try lia.
    reflexivity.
Qed.

(** The arithmetic heart of the correctly rounded square root: [q] is the
    integer square root of [n] scaled by [P * P], the rounded mantissa [M]
    is [q] or (when the remainder exceeds [q]) [q + 1], and dividing by the
    scale gives back the integer square root of [n]. *)
Lemma scaled_sqrt_floor n P H q r M :
  0 <= n -> 0 < H -> H < P -> n < H * H ->
  n * (P * P) = q * q + r -> 0 <= q -> 0 <= r <= 2 * q ->
  (M = q \/ (M = q + 1 /\ q < r)) ->
  Z.sqrt n * P <= M < (Z.sqrt n + 1) * P.
Proof.
  intros Hn HH HP HnH Hq Hq0 Hr HM.
  pose proof (Z.sqrt_spec n Hn) as Hs. pose proof (Z.sqrt_nonneg n) as Hs0.
  set (s := Z.sqrt n) in *.
  clearbody s. unfold Z.succ in Hs.
  assert (HsH : s + 1 <= H).
  { assert (s < H); [|lia]. apply Z.nle_gt. intros Hle.
    assert (H * H <= s * s) by (apply Z.mul_le_mono_nonneg; lia). lia. }
  assert (HP0 : 0 < P * P) by nia.
  assert (Hlo : s * P <= q).
  { assert (s * P < q + 1); [|lia].
    assert (Hsq : (s * P) * (s * P) < (q + 1) * (q + 1)).
    { replace (s * P * (s * P)) with (s * s * (P * P)) by ring.
      assert (s * s * (P * P) <= n * (P * P)) by (apply Z.mul_le_mono_nonneg_r; lia).
      lia. }
    apply Z.nle_gt. intros Hle.
    assert ((q + 1) * (q + 1) <= (s * P) * (s * P)) by (apply Z.mul_le_mono_nonneg; lia).
    lia. }
  assert (Hhi : q < (s + 1) * P).
  { assert (Hsq : q * q < ((s + 1) * P) * ((s + 1) * P)).
    { replace ((s + 1) * P * ((s + 1) * P)) with ((s + 1) * (s + 1) * (P * P)) by ring.
      assert (n * (P * P) < (s + 1) * (s + 1) * (P * P)) by (apply Z.mul_lt_mono_pos_r; lia).
      lia. }
    apply Z.nle_gt. intros Hle.
    assert (((s + 1) * P) * ((s + 1) * P) <= q * q) by (apply Z.mul_le_mono_nonneg; nia).
    lia. }
  destruct HM as [-> | [-> Hqr]]; [lia|].
  split; [lia|].
  assert (q + 1 <> (s + 1) * P); [|lia].
  intros HT.
  assert (n * (P * P) <= ((s + 1) * (s + 1) - 1) * (P * P))
    by (apply Z.mul_le_mono_nonneg_r; lia).
  assert (P * P < (s + 1) * P) by (rewrite <- HT in *; nia).
  assert ((s + 1) * P <= H * P) by (apply Z.mul_le_mono_nonneg_r; lia).
  assert (H * P < P * P) by (apply Z.mul_lt_mono_pos_r; lia).
  lia.
Qed.

Lemma to_i64_sqrt_of_i64 n :
  0 <= n < 2 ^ 52 -> to_i64 (sqrt (of_i64 n)) = Z.sqrt n.
Proof.
  intros Hn. destruct (Z.eq_dec n 0) as [-> | Hn0]; [reflexivity|].
  rewrite of_i64_normal by lia.
  pose proof (Z.log2_spec n ltac:(lia)) as Hl.
  pose proof (Z.log2_nonneg n) as Hl0.
  assert (Hl52 : Z.log2 n < 52) by (apply Z.log2_lt_pow2; lia).
  set (L := Z.log2 n) in *. clearbody L.
  assert (Hm : 2 ^ 52 <= n * 2 ^ (52 - L) < 2 ^ 53).
  { replace (2 ^ 52) with (2 ^ L * 2 ^ (52 - L)) by (rewrite <- Z.pow_add_r by lia; f_equal; lia).
    replace (2 ^ 53) with (2 ^ Z.succ L * 2 ^ (52 - L)) by (rewrite <- Z.pow_add_r by lia; f_equal; lia).
    assert (0 < 2 ^ (52 - L)) by (apply Z.pow_pos_nonneg; lia). nia. }
  unfold sqrt, SFsqrt, SFsqrt_core_binary.
  rewrite Z2Pos.id by lia.
  rewrite (Zdigits2_eq _ 53) by lia.
  rewrite !Z.div2_div.
  assert (He' : Z.min (fexp prec emax ((53 + (L - 52) + 1) / 2)) ((L - 52) / 2) = L / 2 - 52).
  { unfold fexp, emin, prec, emax.
    replace (53 + (L - 52) + 1) with (L + 1 * 2) by lia.
    replace (L - 52) with (L + (-26) * 2) by lia.
    rewrite !Z.div_add by lia. pose proof (Z.div_pos L 2). lia. }
  rewrite He'.
  set (K := 52 - L / 2).
  assert (HK : 27 <= K <= 52).
  { unfold K. pose proof (Z.div_pos L 2).
    assert (L / 2 < 26) by (apply Z.div_lt_upper_bound; lia). lia. }
  assert (Hs : L - 52 - 2 * (L / 2 - 52) = 2 * K - (52 - L)) by (unfold K; lia).
  assert (Hs' : 0 < 2 * K - (52 - L)).
  { unfold K. pose proof (Z.mod_pos_bound L 2). pose proof (Z.div_mod L 2). lia. }
  rewrite Hs.
  assert (Hm' : (n * 2 ^ (52 - L)) ≪ (2 * K - (52 - L)) = n * (2 ^ K * 2 ^ K)).
  { rewrite Z.shiftl_mul_pow2 by lia. rewrite <- Z.mul_assoc, <- !Z.pow_add_r by lia.
    do 2 f_equal. lia. }
  destruct (2 * K - (52 - L)) as [|p|p] eqn:Es; try lia.
  rewrite Hm'. clear p Es Hs Hs' Hm'.
  replace (L / 2 - 52) with (- K) by (unfold K; lia).
  assert (HP : 0 < 2 ^ K) by (apply Z.pow_pos_nonneg; lia).
  assert (HH : 0 < 2 ^ (53 - K)) by (apply Z.pow_pos_nonneg; lia).
  assert (HHP : 2 ^ (53 - K) < 2 ^ K) by (apply Z.pow_lt_mono_r; lia).
  assert (HHPe : 2 ^ (53 - K) * 2 ^ K = 2 ^ 53)
    by (rewrite <- Z.pow_add_r by lia; f_equal; lia).
  assert (HnH : n < 2 ^ (53 - K) * 2 ^ (53 - K)).
  { rewrite <- Z.pow_add_r by lia.
    apply Z.lt_le_trans with (2 ^ Z.succ L); [lia|].
    apply Z.pow_le_mono_r; [lia|]. unfold K.
    pose proof (Z.mod_pos_bound L 2). pose proof (Z.div_mod L 2). lia. }
  assert (Hslo : 2 ^ (52 - K) <= Z.sqrt n).
  { apply Z.sqrt_le_square; [lia | apply Z.pow_nonneg; lia |].
    rewrite <- Z.pow_add_r by lia.
    apply Z.le_trans with (2 ^ L); [|lia].
    apply Z.pow_le_mono_r; [lia|]. unfold K.
    pose proof (Z.mod_pos_bound L 2). pose proof (Z.div_mod L 2). lia. }
  assert (HloP : 2 ^ 52 <= Z.sqrt n * 2 ^ K).
  { replace (2 ^ 52) with (2 ^ (52 - K) * 2 ^ K)
      by (rewrite <- Z.pow_add_r by lia; f_equal; lia).
    apply Z.mul_le_mono_nonneg_r; lia. }
  assert (HhiP : (Z.sqrt n + 1) * 2 ^ K <= 2 ^ 53).
  { rewrite <- HHPe. apply Z.mul_le_mono_nonneg_r; [lia|].
    assert (Z.sqrt n < 2 ^ (53 - K)); [|lia].
    apply Z.sqrt_lt_square; lia. }
  pose proof (Z.sqrtrem_spec (n * (2 ^ K * 2 ^ K)) ltac:(nia)) as Hqr.
  change IntDef.Z.sqrtrem with Z.sqrtrem.
  destruct (Z.sqrtrem (n * (2 ^ K * 2 ^ K))) as [q r].
  destruct Hqr as [Hq Hr].
  assert (Hq0 : 0 <= q) by lia.
  set (l := if r =? 0 then loc_Exact else loc_Inexact (if r <=? q then Lt else Gt)).
  assert (HM : round_nearest_even q l = q \/ (round_nearest_even q l = q + 1 /\ q < r)).
  { unfold l. destruct (Z.eqb_spec r 0); [left; reflexivity|].
    destruct (Z.leb_spec r q); [left; reflexivity|]. right. simpl. lia. }
  pose proof (scaled_sqrt_floor n (2 ^ K) (2 ^ (53 - K)) q r q
                ltac:(lia) HH HHP HnH Hq Hq0 Hr ltac:(left; reflexivity)) as Hqb.
  pose proof (scaled_sqrt_floor n (2 ^ K) (2 ^ (53 - K)) q r (round_nearest_even q l)
                ltac:(lia) HH HHP HnH Hq Hq0 Hr HM) as HMb.
  rewrite binary_round_aux_normal by lia.
  unfold to_i64.
  rewrite Z2Pos.id by lia.
  rewrite Z.shiftl_div_pow2 by lia. rewrite Z.opp_involutive.
  assert (Hdiv : round_nearest_even q l / 2 ^ K = Z.sqrt n).
  { symmetry. apply Z.div_unique with (round_nearest_even q l - Z.sqrt n * 2 ^ K); lia. }
  rewrite Hdiv.
  pose proof (Z.sqrt_nonneg n).
  assert (Z.sqrt n < 2 ^ 26).
  { apply Z.lt_le_trans with (2 ^ (53 - K)); [apply Z.sqrt_lt_square; lia|].
    apply Z.pow_le_mono_r; lia. }
  unfold I64.in_range, I64.MIN, I64.MAX.
  destruct (Z.leb_spec (- 2 ^ 63) (Z.sqrt n)); [|lia].
  destruct (Z.leb_spec (Z.sqrt n) (2 ^ 63 - 1)); [reflexivity|lia].
Qed.

End DoubleFacts.

(** ** Machine integers: no wrap-around inside the range *)

Lemma wrap_in_range z : I64.MIN <= z <= I64.MAX -> I64.wrap z = z.
Proof.
  unfold I64.MIN, I64.MAX, I64.wrap. intros Hz.
  rewrite Z.mod_small by lia. lia.
Qed.

Lemma wrap_bounds z : I64.MIN <= I64.wrap z <= I64.MAX.
Proof.
  unfold I64.MIN, I64.MAX, I64.wrap.
  pose proof (Z.mod_pos_bound (z + 2 ^ 63) (2 ^ 64) ltac:(lia)). lia.
Qed.

Lemma in_range_true z : I64.in_range z = true <-> I64.MIN <= z <= I64.MAX.
Proof. unfold I64.in_range. rewrite andb_true_iff, !Z.leb_le. tauto. Qed.

Lemma checked_mul_in_range x y :
  I64.MIN <= x * y <= I64.MAX ->
  I64.checked_mul x y = Some (x * y) /\ I64.mul x y = x * y.
Proof.
  intros H. unfold I64.checked_mul, I64.mul.
  rewrite (proj2 (in_range_true _) H), wrap_in_range by assumption. auto.
Qed.

Lemma checked_add_in_range x y :
  I64.MIN <= x + y <= I64.MAX ->
  I64.checked_add x y = Some (x + y) /\ I64.add x y = x + y.
Proof.
  intros H. unfold I64.checked_add, I64.add.
  rewrite (proj2 (in_range_true _) H), wrap_in_range by assumption. auto.
Qed.

(** ** Reasoning rules for bounded loops *)

Section ForRange.
Context {S : Type}.
Implicit Types (body : Z -> S -> S) (s : S).

Lemma for_range_nil lo hi body s : hi <= lo -> for_range lo hi body s = s.
Proof. intros H. unfold for_range. rewrite seqZ_nil by lia. reflexivity. Qed.

Lemma for_range_cons lo hi body s :
  lo < hi -> for_range lo hi body s = for_range (lo + 1) hi body (body lo s).
Proof.
  intros H. unfold for_range. rewrite (seqZ_cons lo) by lia. simpl.
  do 2 f_equal; lia.
Qed.

Lemma for_range_app lo mid hi body s :
  lo <= mid <= hi ->
  for_range lo hi body s = for_range mid hi body (for_range lo mid body s).
Proof.
  intros H. unfold for_range.
  replace (hi - lo) with ((mid - lo) + (hi - mid)) by lia.
  rewrite seqZ_app, foldl_app by lia. do 3 f_equal; lia.
Qed.

Lemma for_range_snoc lo hi body s :
  lo <= hi -> for_range lo (hi + 1) body s = body hi (for_range lo hi body s).
Proof.
  intros H. rewrite (for_range_app lo hi (hi + 1)) by lia.
  rewrite for_range_cons by lia. apply for_range_nil. lia.
Qed.

(** The invariant rule: [P i s] relates the loop counter to the state. *)
Lemma for_range_ind (P : Z -> S -> Prop) lo hi body s :
  lo <= hi ->
  P lo s ->
  (forall i t, lo <= i < hi -> P i t -> P (i + 1) (body i t)) ->
  P hi (for_range lo hi body s).
Proof.
  intros Hle H0 Hstep.
  assert (Hall : forall k : nat, lo + Z.of_nat k <= hi ->
            P (lo + Z.of_nat k) (for_range lo (lo + Z.of_nat k) body s)).
  { induction k as [|k IH]; intros Hk.
    - rewrite Z.add_0_r, for_range_nil by lia. assumption.
    - replace (lo + Z.of_nat (Datatypes.S k)) with (lo + Z.of_nat k + 1) in * by lia.
      rewrite for_range_snoc by lia. apply Hstep; [lia|]. apply IH. lia. }
  specialize (Hall (Z.to_nat (hi - lo))).
  replace (lo + Z.of_nat (Z.to_nat (hi - lo))) with hi in Hall by lia.
  apply Hall. lia.
Qed.

End ForRange.

(** ** The residue table *)

Lemma to_size_t_mod_MODULUS n : to_size_t n mod MODULUS = n mod MODULUS.
Proof.
  unfold to_size_t, MODULUS.
  apply Z.mod_mod_divide. exists (2 ^ 58). reflexivity.
Qed.

Lemma testbit_set_bit bits pos x :
  0 <= pos ->
  Z.testbit (Z.lor bits (Z.shiftl 1 pos)) x = (pos =? x) || Z.testbit bits x.
Proof. intros Hpos. apply (Z.setbit_eqb bits pos x Hpos). Qed.

(** After the loop, the bits set are exactly the squares of [0 .. n-1]
    modulo [n].  The bound on [n] keeps [i*i] inside [size_t]. *)
Lemma quadratic_residues_mod_spec n x :
  0 < n <= 2 ^ 32 ->
  Z.testbit (quadratic_residues_mod n) x = true <->
  exists i, 0 <= i < n /\ x = (i * i) mod n.
Proof.
  intros Hn. unfold quadratic_residues_mod.
  apply (for_range_ind
    (fun j res => Z.testbit res x = true <-> exists i, 0 <= i < j /\ x = (i * i) mod n));
    [lia | |].
  - rewrite Z.testbit_0_l. split; [discriminate|]. intros (i & Hi & _). lia.
  - intros j res Hj IH.
    assert (Hsq : to_size_t (j * j) = j * j).
    { unfold to_size_t. apply Z.mod_small. split; [nia|].
      change (2 ^ 64) with (2 ^ 32 * 2 ^ 32). nia. }
    rewrite Hsq, testbit_set_bit by (apply Z.mod_pos_bound; lia).
    rewrite orb_true_iff, IH, Z.eqb_eq. split.
    + intros [Hx | (i & Hi & Hx)]; [exists j | exists i]; split; auto; lia.
    + intros (i & Hi & Hx). destruct (Z.eq_dec i j) as [-> | Hne]; [left; auto|].
      right. exists i. split; [lia | assumption].
Qed.

Lemma square_residue_set n k :
  0 < n <= 2 ^ 32 ->
  Z.testbit (quadratic_residues_mod n) ((k * k) mod n) = true.
Proof.
  intros Hn. apply quadratic_residues_mod_spec; [assumption|].
  exists (k mod n). split; [apply Z.mod_pos_bound; lia|].
  apply Z.mul_mod. lia.
Qed.

Lemma is_square_residue n :
  is_square n -> Z.testbit quadratic_residues (to_size_t n mod MODULUS) = true.
Proof.
  intros [k ->]. rewrite to_size_t_mod_MODULUS.
  apply square_residue_set. unfold MODULUS. lia.
Qed.

(** ** The classifier decides perfect squares below [2^52] *)

Lemma sqrt_square_iff n : 0 <= n -> Z.sqrt n * Z.sqrt n = n <-> is_square n.
Proof.
  intros Hn. split.
  - intros H. exists (Z.sqrt n). auto.
  - intros [k ->]. rewrite <- (Z.abs_square k), Z.sqrt_square by lia. reflexivity.
Qed.

Lemma root_check_exact n :
  0 <= n < 2 ^ 52 ->
  let root := Double.to_i64 (Double.sqrt (Double.of_i64 n)) in
  root = Z.sqrt n /\
  I64.checked_mul root root = Some (Z.sqrt n * Z.sqrt n) /\
  I64.mul root root = Z.sqrt n * Z.sqrt n.
Proof.
  intros Hn root. unfold root. rewrite to_i64_sqrt_of_i64 by assumption.
  split; [reflexivity|].
  pose proof (Z.sqrt_spec n ltac:(lia)) as [Hlo _].
  pose proof (Z.square_nonneg (Z.sqrt n)).
  apply checked_mul_in_range. unfold I64.MIN, I64.MAX. lia.
Qed.

Lemma is_perfect_square_sqrt n :
  0 <= n < 2 ^ 52 ->
  is_perfect_square n = (Z.sqrt n * Z.sqrt n =? n).
Proof.
  intros Hn. unfold is_perfect_square.
  destruct (root_check_exact n Hn) as (_ & _ & ->).
  destruct (Z.testbit quadratic_residues (to_size_t n mod MODULUS)) eqn:Hbit;
    [reflexivity|].
  simpl. symmetry. apply Z.eqb_neq. intros Hsq.
  apply sqrt_square_iff in Hsq; [|lia].
  rewrite (is_square_residue n Hsq) in Hbit. discriminate.
Qed.

Lemma is_perfect_square_true n :
  0 <= n < 2 ^ 52 -> is_perfect_square n = true <-> is_square n.
Proof.
  intros Hn. rewrite is_perfect_square_sqrt, Z.eqb_eq by assumption.
  apply sqrt_square_iff. lia.
Qed.

(** ** The candidate formula *)

Lemma candidate_value_split a b c :
  candidate_value a b c = c * c * a * a * a * b + c * b * b.
Proof. unfold candidate_value. ring. Qed.

Lemma candidate_value_pos a b c :
  1 <= a -> 1 <= b -> 1 <= c -> c * c + c <= candidate_value a b c.
Proof.
  intros Ha Hb Hc. rewrite candidate_value_split.
  assert (c * c <= c * c * a) by nia.
  assert (c * c * a <= c * c * a * a) by nia.
  assert (c * c * a * a <= c * c * a * a * a) by nia.
  assert (c * c * a * a * a <= c * c * a * a * a * b) by nia.
  assert (c <= c * b) by nia.
  assert (c * b <= c * b * b) by nia.
  lia.
Qed.

(** Inside the 64-bit range the machine evaluation is the exact one, and
    no intermediate product overflows. *)
Lemma compute_candidate_exact a b c :
  1 <= a -> 1 <= b -> 1 <= c -> candidate_value a b c <= I64.MAX ->
  compute_candidate_checked a b c = Some (candidate_value a b c) /\
  compute_candidate a b c = candidate_value a b c.
Proof.
  intros Ha Hb Hc Hmax. rewrite candidate_value_split in *.
  assert (H1 : 1 <= c * c) by nia.
  assert (H2 : c * c <= c * c * a) by nia.
  assert (H3 : c * c * a <= c * c * a * a) by nia.
  assert (H4 : c * c * a * a <= c * c * a * a * a) by nia.
  assert (H5 : c * c * a * a * a <= c * c * a * a * a * b) by nia.
  assert (H6 : c <= c * b) by nia.
  assert (H7 : c * b <= c * b * b) by nia.
  assert (Hmin : I64.MIN <= 0) by (unfold I64.MIN; lia).
  unfold compute_candidate_checked, compute_candidate.
  destruct (checked_mul_in_range c c) as [-> ->]; [lia|]. simpl.
  destruct (checked_mul_in_range (c * c) a) as [-> ->]; [lia|]. simpl.
  destruct (checked_mul_in_range (c * c * a) a) as [-> ->]; [lia|]. simpl.
  destruct (checked_mul_in_range (c * c * a * a) a) as [-> ->]; [lia|]. simpl.
  destruct (checked_mul_in_range (c * c * a * a * a) b) as [-> ->]; [lia|]. simpl.
  destruct (checked_mul_in_range c b) as [-> ->]; [lia|]. simpl.
  destruct (checked_mul_in_range (c * b) b) as [-> ->]; [lia|]. simpl.
  apply checked_add_in_range. lia.
Qed.

Lemma candidate_value_mono a b c1 c2 :
  1 <= a -> 1 <= b -> 1 <= c1 < c2 ->
  candidate_value a b c1 < candidate_value a b c2.
Proof.
  intros Ha Hb Hc. unfold candidate_value.
  assert (0 < a ^ 3 * b) by (apply Z.mul_pos_pos; [apply Z.pow_pos_nonneg|]; lia).
  assert (0 < b ^ 2) by (apply Z.pow_pos_nonneg; lia).
  assert (c1 ^ 2 < c2 ^ 2) by (apply Z.pow_lt_mono_l; lia).
  rewrite <- !(Z.mul_assoc _ (a ^ 3) b). nia.
Qed.

(** One more step of [c] at most quadruples the candidate. *)
Lemma candidate_value_next a b c :
  1 <= a -> 1 <= b -> 1 <= c ->
  candidate_value a b (c + 1) <= 4 * candidate_value a b c.
Proof.
  intros Ha Hb Hc. unfold candidate_value.
  assert (0 < a ^ 3 * b) by (apply Z.mul_pos_pos; [apply Z.pow_pos_nonneg|]; lia).
  assert (0 < b ^ 2) by (apply Z.pow_pos_nonneg; lia).
  assert ((c + 1) ^ 2 <= 4 * c ^ 2) by nia.
  rewrite <- !(Z.mul_assoc _ (a ^ 3) b). nia.
Qed.

Lemma candidate_value_large_a a b c :
  A_LIMIT <= a -> 1 <= b -> 1 <= c -> BOUND <= candidate_value a b c.
Proof.
  unfold A_LIMIT, BOUND. intros Ha Hb Hc.
  assert (1000000000000 <= a ^ 3).
  { change 1000000000000 with (10000 ^ 3). apply Z.pow_le_mono_l. lia. }
  assert (0 < b ^ 2) by (apply Z.pow_pos_nonneg; lia).
  assert (1 <= c ^ 2) by nia.
  unfold candidate_value.
  assert (a ^ 3 <= c ^ 2 * a ^ 3) by nia.
  assert (c ^ 2 * a ^ 3 <= c ^ 2 * a ^ 3 * b) by nia.
  nia.
Qed.

(** ** The inner loop over [c] *)

Lemma c_loop_step Bound fuel a b c sols :
  c_loop Bound (Datatypes.S fuel) a b c sols =
    if Bound <=? compute_candidate a b c then Some sols
    else c_loop Bound fuel a b (I64.add c 1)
           (if is_perfect_square (compute_candidate a b c)
            then {[ compute_candidate a b c ]} ∪ sols else sols).
Proof. reflexivity. Qed.

(** One classification step of the loop body on a candidate in the range
    of the classifier. *)
Lemma classify_insert n (sols : gset Z) x :
  0 <= n < 2 ^ 52 ->
  x ∈ (if is_perfect_square n then {[ n ]} ∪ sols else sols) <->
  (x = n /\ is_square x) \/ x ∈ sols.
Proof.
  intros Hn. pose proof (is_perfect_square_true n Hn) as Hsq.
  destruct (is_perfect_square n).
  - rewrite elem_of_union, elem_of_singleton. split.
    + intros [-> | Hin]; [left; split; [reflexivity | apply Hsq; reflexivity] | auto].
    + intros [[-> _] | Hin]; auto.
  - split; [auto|]. intros [[-> Hs] | Hin]; [|assumption].
    apply Hsq in Hs. discriminate.
Qed.

Section InnerLoop.
Variables Bound a b : Z.
Hypothesis HBound : Bound <= 2 ^ 52.
Hypothesis Ha : 1 <= a.
Hypothesis Hb : 1 <= b.
Hypothesis Hfirst : candidate_value a b 1 <= I64.MAX.

(** A candidate below the bound is in the range of the classifier, and the
    increment of its [c] does not wrap. *)
Lemma below_bound_range c :
  1 <= c -> candidate_value a b c < Bound ->
  0 <= candidate_value a b c < 2 ^ 52 /\ I64.add c 1 = c + 1.
Proof.
  intros Hc Hlt. pose proof (candidate_value_pos a b c Ha Hb Hc) as Hpos.
  split; [nia|]. apply checked_add_in_range. unfold I64.MIN, I64.MAX. nia.
Qed.

(** While the candidate is below the bound, [c] is at most the square root
    of the bound. *)
Lemma below_bound_sqrt c :
  1 <= c -> candidate_value a b c < Bound -> c <= Z.sqrt Bound.
Proof.
  intros Hc Hlt. pose proof (candidate_value_pos a b c Ha Hb Hc).
  apply Z.sqrt_le_square; lia.
Qed.

(** What holds at every [c] the loop reaches: the counter has not wrapped,
    the candidate fits in 64 bits, and all earlier candidates were below
    the bound. *)
Lemma reached_c_spec c :
  reached_c Bound a b c ->
  1 <= c /\ candidate_value a b c <= I64.MAX /\
  (forall c', 1 <= c' < c -> candidate_value a b c' < Bound).
Proof.
  induction 1 as [|c Hr (Hc & Hmax & Hbelow) Hlt].
  - repeat split; [lia | assumption | intros; lia].
  - destruct (compute_candidate_exact a b c Ha Hb Hc Hmax) as [_ Hexact].
    rewrite Hexact in Hlt.
    destruct (below_bound_range c Hc Hlt) as [_ ->].
    split; [lia|]. split.
    + pose proof (candidate_value_next a b c Ha Hb Hc). unfold I64.MAX. lia.
    + intros c' Hc'. destruct (Z.eq_dec c' c) as [-> | Hne]; [assumption|].
      apply Hbelow. lia.
Qed.

Lemma reached_c_exact c :
  reached_c Bound a b c ->
  compute_candidate_checked a b c = Some (candidate_value a b c) /\
  compute_candidate a b c = candidate_value a b c.
Proof.
  intros Hr. destruct (reached_c_spec c Hr) as (Hc & Hmax & _).
  apply compute_candidate_exact; assumption.
Qed.

Lemma reached_c_succ c :
  reached_c Bound a b c -> candidate_value a b c < Bound ->
  reached_c Bound a b (c + 1).
Proof.
  intros Hr Hlt. destruct (reached_c_spec c Hr) as (Hc & _).
  destruct (below_bound_range c Hc Hlt) as [_ <-].
  apply reached_next; [assumption|].
  destruct (reached_c_exact c Hr) as [_ ->]. assumption.
Qed.

(** The reached values of [c] are those all of whose predecessors gave a
    candidate below the bound. *)
Lemma reached_c_intro c :
  1 <= c ->
  (forall c', 1 <= c' < c -> compute_candidate a b c' < Bound) ->
  reached_c Bound a b c.
Proof.
  intros Hc Hbelow.
  assert (Hall : forall k : nat, 1 + Z.of_nat k <= c ->
            reached_c Bound a b (1 + Z.of_nat k)).
  { induction k as [|k IH]; intros Hk; [apply reached_first|].
    replace (1 + Z.of_nat (Datatypes.S k)) with (1 + Z.of_nat k + 1) by lia.
    assert (Hr : reached_c Bound a b (1 + Z.of_nat k)) by (apply IH; lia).
    apply reached_c_succ; [assumption|].
    destruct (reached_c_exact _ Hr) as [_ <-]. apply Hbelow. lia. }
  specialize (Hall (Z.to_nat (c - 1))).
  replace (1 + Z.of_nat (Z.to_nat (c - 1))) with c in Hall by lia.
  apply Hall. lia.
Qed.

(** The loop stops: [c] cannot pass the square root of the bound. *)
Lemma c_loop_terminates fuel : forall c sols,
  reached_c Bound a b c ->
  (Z.to_nat (Z.sqrt Bound + 1 - c) < fuel)%nat ->
  is_Some (c_loop Bound fuel a b c sols).
Proof.
  induction fuel as [|fuel IH]; intros c sols Hr Hfuel; [lia|].
  rewrite c_loop_step. destruct (reached_c_exact c Hr) as [_ ->].
  destruct (Z.leb_spec Bound (candidate_value a b c)) as [Hge | Hlt]; [eauto|].
  destruct (reached_c_spec c Hr) as (Hc & _).
  pose proof (below_bound_sqrt c Hc Hlt) as Hsqrt.
  destruct (below_bound_range c Hc Hlt) as [_ ->].
  apply IH; [apply reached_c_succ; assumption | lia].
Qed.

(** The loop reaches a [c] whose candidate meets the bound, where it
    breaks. *)
Lemma c_loop_breaks (k : nat) : forall c,
  reached_c Bound a b c ->
  (Z.to_nat (Z.sqrt Bound + 1 - c) <= k)%nat ->
  exists c', c <= c' /\ reached_c Bound a b c' /\
    Bound <= compute_candidate a b c'.
Proof.
  induction k as [|k IH]; intros c Hr Hk;
    destruct (reached_c_exact c Hr) as [_ Hexact];
    destruct (reached_c_spec c Hr) as (Hc & _);
    (destruct (Z.le_gt_cases Bound (candidate_value a b c)) as [Hge | Hlt];
      [exists c; rewrite Hexact; repeat split; [lia | assumption ..]|]);
    pose proof (below_bound_sqrt c Hc ltac:(lia)) as Hsqrt; [lia|].
  destruct (IH (c + 1) (reached_c_succ c Hr ltac:(lia)) ltac:(lia))
    as (c' & Hc' & Hr' & Hbreak).
  exists c'. repeat split; [lia | assumption ..].
Qed.

(** What the loop adds: exactly the square candidates below the bound for
    the remaining values of [c]. *)
Lemma c_loop_spec fuel : forall c sols sols',
  reached_c Bound a b c ->
  c_loop Bound fuel a b c sols = Some sols' ->
  forall n, n ∈ sols' <->
    n ∈ sols \/
    exists c', c <= c' /\ n = candidate_value a b c' /\ n < Bound /\ is_square n.
Proof.
  induction fuel as [|fuel IH]; intros c sols sols' Hr Hrun n; [discriminate|].
  rewrite c_loop_step in Hrun. destruct (reached_c_exact c Hr) as [_ Hexact].
  rewrite Hexact in Hrun.
  destruct (reached_c_spec c Hr) as (Hc & _).
  destruct (Z.leb_spec Bound (candidate_value a b c)) as [Hge | Hlt].
  - injection Hrun as <-. split; [auto|].
    intros [Hin | (c' & Hc' & -> & Hlt & _)]; [assumption|].
    destruct (Z.eq_dec c' c) as [-> | Hne]; [lia|].
    pose proof (candidate_value_mono a b c c' Ha Hb ltac:(lia)). lia.
  - destruct (below_bound_range c Hc Hlt) as [Hrange Hadd].
    rewrite Hadd in Hrun.
    rewrite (IH _ _ _ (reached_c_succ c Hr Hlt) Hrun n).
    rewrite (classify_insert _ sols n Hrange). split.
    + intros [[[-> Hsq] | Hin] | (c' & Hc' & Hn)]; [| auto |].
      * right. exists c. repeat split; [lia | assumption ..].
      * right. exists c'. split; [lia | assumption].
    + intros [Hin | (c' & Hc' & Hn & Hlt' & Hsq)]; [auto|].
      destruct (Z.eq_dec c' c) as [-> | Hne]; [left; left; split; assumption|].
      right. exists c'. repeat split; [lia | assumption ..].
Qed.

(** The states of the inner loop: their counters are reached ones, and the
    set holds what was there on entry plus the square candidates of the
    values of [c] already passed. *)
Lemma inner_state_reached sols0 c sols :
  inner_state Bound a b sols0 c sols -> reached_c Bound a b c.
Proof. induction 1; [apply reached_first | apply reached_next; assumption]. Qed.

Lemma inner_state_spec sols0 c sols :
  inner_state Bound a b sols0 c sols ->
  forall n, n ∈ sols <->
    n ∈ sols0 \/
    exists c', 1 <= c' < c /\ n = candidate_value a b c' /\ n < Bound /\ is_square n.
Proof.
  induction 1 as [|c sols Hst IH Hlt]; intros n.
  - split; [auto|]. intros [Hin | (c' & Hc' & _)]; [assumption | lia].
  - pose proof (inner_state_reached _ _ _ Hst) as Hr.
    destruct (reached_c_exact c Hr) as [_ Hexact]. rewrite Hexact in *.
    destruct (reached_c_spec c Hr) as (Hc & _).
    destruct (below_bound_range c Hc Hlt) as [Hrange ->].
    rewrite (classify_insert _ sols n Hrange), (IH n). split.
    + intros [[-> Hs] | [Hin | (c' & Hc' & Hn)]]; [| auto |].
      * right. exists c. repeat split; [lia | lia | assumption | assumption].
      * right. exists c'. split; [lia | assumption].
    + intros [Hin | (c' & Hc' & Hn & Hlt' & Hs)]; [auto|].
      destruct (Z.eq_dec c' c) as [-> | Hne]; [left; split; assumption|].
      right. right. exists c'. repeat split; [lia | lia | assumption ..].
Qed.

End InnerLoop.

(** ** The loops over [b] and [a] *)

Lemma first_candidate_fits a b :
  1 <= b < a -> a <= A_LIMIT -> candidate_value a b 1 <= I64.MAX.
Proof.
  unfold A_LIMIT, I64.MAX, candidate_value. intros Hb Ha.
  assert (a ^ 3 <= 10000 ^ 3) by (apply Z.pow_le_mono_l; lia).
  assert (b ^ 2 <= 10000 ^ 2) by (apply Z.pow_le_mono_l; lia).
  assert (0 < a ^ 3) by (apply Z.pow_pos_nonneg; lia).
  assert (a ^ 3 * b <= 10000 ^ 3 * 10000) by nia.
  lia.
Qed.

Section Enumeration.
Variable Bound : Z.
Hypothesis HBound : Bound <= 2 ^ 52.

Lemma b_loop_None fuel a : b_loop Bound fuel a None = None.
Proof.
  unfold b_loop. destruct (Z.le_gt_cases 1 a) as [Hle | Hgt].
  - apply (for_range_ind (fun _ acc => acc = None)); [lia | reflexivity |].
    intros i t _ ->. reflexivity.
  - apply for_range_nil. lia.
Qed.

Lemma b_loop_terminates fuel a acc :
  a <= A_LIMIT -> (Z.to_nat (Z.sqrt Bound) < fuel)%nat ->
  is_Some acc -> is_Some (b_loop Bound fuel a acc).
Proof.
  intros Ha Hfuel Hacc. unfold b_loop.
  destruct (Z.le_gt_cases 1 a) as [Hle | Hgt].
  - apply (for_range_ind (fun _ acc => is_Some acc)); [lia | assumption |].
    intros b t Hb [sols ->]. simpl.
    apply (c_loop_terminates Bound a b HBound); try lia.
    + apply first_candidate_fits; lia.
    + constructor.
  - rewrite for_range_nil by lia. assumption.
Qed.

Lemma b_prefix_spec fuel a j sols sols' :
  a <= A_LIMIT -> 1 <= j <= a ->
  for_range 1 j (fun b acc => acc ≫= c_loop Bound fuel a b 1) (Some sols)
    = Some sols' ->
  forall n, n ∈ sols' <->
    n ∈ sols \/
    exists b c, 1 <= b < j /\ 1 <= c /\
      n = candidate_value a b c /\ n < Bound /\ is_square n.
Proof.
  intros Ha Hj. revert sols'.
  apply (for_range_ind (fun j acc => forall s', acc = Some s' ->
    forall n, n ∈ s' <->
      n ∈ sols \/
      exists b c, 1 <= b < j /\ 1 <= c /\
        n = candidate_value a b c /\ n < Bound /\ is_square n)); [lia | |].
  - intros s' [= <-] n. split; [auto|].
    intros [Hin | (b & c & Hb & _)]; [assumption | lia].
  - intros b [t|] Hb IH s' Hrun n; [|discriminate].
    simpl in Hrun.
    rewrite (c_loop_spec Bound a b HBound ltac:(lia) ltac:(lia)
               (first_candidate_fits a b ltac:(lia) Ha)
               fuel 1 t s' (reached_first _ _ _) Hrun n).
    rewrite (IH t eq_refl n). split.
    + intros [[Hin | (b' & c & Hb' & Hn)] | (c & Hc & Hn)]; [auto | |].
      * right. exists b', c. split; [lia | assumption].
      * right. exists b, c. split; [lia|]. split; assumption.
    + intros [Hin | (b' & c & Hb' & Hc & Hn)]; [auto|].
      destruct (Z.eq_dec b' b) as [-> | Hne].
      * right. exists c. split; assumption.
      * left. right. exists b', c. split; [lia|]. split; assumption.
Qed.

Lemma b_loop_spec fuel a sols sols' :
  a <= A_LIMIT ->
  b_loop Bound fuel a (Some sols) = Some sols' ->
  forall n, n ∈ sols' <->
    n ∈ sols \/
    exists b c, 1 <= b < a /\ 1 <= c /\
      n = candidate_value a b c /\ n < Bound /\ is_square n.
Proof.
  intros Ha. unfold b_loop.
  destruct (Z.le_gt_cases 1 a) as [Hle | Hgt].
  - apply b_prefix_spec; lia.
  - rewrite for_range_nil by lia. intros [= <-] n. split; [auto|].
    intros [Hin | (b & c & Hb & _)]; [assumption | lia].
Qed.

Variable Alimit : Z.
Hypothesis HAlimit : Alimit <= A_LIMIT.

(** With enough fuel for one inner loop the enumeration finishes. *)
Lemma search_terminates fuel :
  (Z.to_nat (Z.sqrt Bound) < fuel)%nat -> is_Some (search Bound Alimit fuel).
Proof.
  intros Hfuel. unfold search.
  destruct (Z.le_gt_cases 1 Alimit) as [Hle | Hgt].
  - apply (for_range_ind (fun _ acc => is_Some acc)); [lia | eauto |].
    intros a t Ha Ht. apply b_loop_terminates; [lia | assumption ..].
  - rewrite for_range_nil by lia. eauto.
Qed.

(** The final set: the square candidates below the bound of all triples
    with [1 <= b < a < Alimit] and [1 <= c]. *)
Lemma search_spec fuel sols :
  search Bound Alimit fuel = Some sols ->
  forall n, n ∈ sols <->
    exists a b c, 1 <= b < a /\ a < Alimit /\ 1 <= c /\
      n = candidate_value a b c /\ n < Bound /\ is_square n.
Proof.
  unfold search. destruct (Z.le_gt_cases 1 Alimit) as [Hle | Hgt].
  - revert sols.
    apply (for_range_ind (fun j acc => forall s', acc = Some s' ->
      forall n, n ∈ s' <->
        exists a b c, 1 <= b < a /\ a < j /\ 1 <= c /\
          n = candidate_value a b c /\ n < Bound /\ is_square n)); [lia | |].
    + intros s' [= <-] n. split; [intros Hin; apply not_elem_of_empty in Hin; tauto|].
      intros (a & b & c & Hb & Ha & _). lia.
    + intros a [t|] Ha IH s' Hrun n; [|rewrite b_loop_None in Hrun; discriminate].
      rewrite (b_loop_spec fuel a t s' ltac:(lia) Hrun n), (IH t eq_refl n).
      split.
      * intros [(a' & b & c & Hb & Ha' & Hn) | (b & c & Hb & Hn)].
        -- exists a', b, c. split; [assumption|]. split; [lia | assumption].
        -- exists a, b, c. split; [assumption|]. split; [lia | assumption].
      * intros (a' & b & c & Hb & Ha' & Hn).
        destruct (Z.eq_dec a' a) as [-> | Hne].
        -- right. exists b, c. split; assumption.
        -- left. exists a', b, c. split; [assumption|]. split; [lia | assumption].
  - rewrite for_range_nil by lia. intros [= <-] n.
    split; [intros Hin; apply not_elem_of_empty in Hin; tauto|].
    intros (a & b & c & Hb & Ha & _). lia.
Qed.

(** The result does not depend on the fuel. *)
Lemma search_deterministic fuel1 fuel2 sols1 sols2 :
  search Bound Alimit fuel1 = Some sols1 ->
  search Bound Alimit fuel2 = Some sols2 ->
  sols1 = sols2.
Proof.
  intros H1 H2. apply set_eq. intros n.
  rewrite (search_spec _ _ H1 n), (search_spec _ _ H2 n). reflexivity.
Qed.

(** Soundness of the final set and of every set held on the way. *)
Lemma search_inv fuel sols :
  search Bound Alimit fuel = Some sols -> sols_inv Bound sols.
Proof.
  intros Hrun n Hin.
  apply (search_spec fuel sols Hrun n) in Hin
    as (a & b & c & Hb & Ha & Hc & Hn & Hlt & Hsq).
  split; [|split; assumption].
  exists a, b, c. unfold candidate_value in Hn. repeat split; [lia .. | assumption].
Qed.

End Enumeration.

Lemma during_inv Bound Alimit sols :
  Bound <= 2 ^ 52 -> Alimit <= A_LIMIT ->
  during Bound Alimit sols -> sols_inv Bound sols.
Proof.
  intros HBound HAlimit (fuel & a & b & c & sa & sb & Hb & Ha & Hsa & Hsb & Hst) n Hin.
  apply (inner_state_spec Bound a b HBound ltac:(lia) ltac:(lia)
           (first_candidate_fits a b Hb ltac:(lia)) sb c sols Hst n) in Hin.
  rewrite (b_prefix_spec Bound HBound fuel a b sa sb ltac:(lia) ltac:(lia) Hsb n) in Hin.
  destruct Hin as [[Hin | (b' & c' & Hb' & Hc' & Hn & Hlt & Hsq)]
                  | (c' & Hc' & Hn & Hlt & Hsq)].
  - apply (search_inv Bound HBound a ltac:(lia) fuel sa Hsa n Hin).
  - split; [|split; assumption].
    exists a, b', c'. unfold candidate_value in Hn. repeat split; [lia .. | assumption].
  - split; [|split; assumption].
    exists a, b, c'. unfold candidate_value in Hn. repeat split; [lia .. | assumption].
Qed.

(** ** Aggregation *)

Lemma wrap_add_l x y : I64.wrap (I64.wrap x + y) = I64.wrap (x + y).
Proof.
  unfold I64.wrap. f_equal.
  replace ((x + 2 ^ 63) mod 2 ^ 64 - 2 ^ 63 + y + 2 ^ 63)
    with ((x + 2 ^ 63) mod 2 ^ 64 + y) by lia.
  rewrite Z.add_mod_idemp_l by lia. f_equal. lia.
Qed.

(** [std::accumulate] computes the sum modulo [2^64], whatever the order. *)
Lemma accumulate_wrap l : forall init,
  accumulate l (I64.wrap init) = I64.wrap (init + sumZ l).
Proof.
  unfold accumulate. induction l as [|x l IH]; intros init; simpl.
  - rewrite Z.add_0_r. reflexivity.
  - unfold I64.add at 2. rewrite wrap_add_l, IH. f_equal. lia.
Qed.

Lemma accumulate_exact l :
  I64.MIN <= sumZ l <= I64.MAX -> accumulate l 0 = sumZ l.
Proof.
  intros H. change 0 with (I64.wrap 0) at 1.
  rewrite accumulate_wrap. apply wrap_in_range. assumption.
Qed.

Lemma sumZ_perm l1 l2 : l1 ≡ₚ l2 -> sumZ l1 = sumZ l2.
Proof. induction 1; simpl; lia. Qed.

Lemma sumZ_bound B l :
  Forall (fun x => 0 <= x < B) l -> 0 <= sumZ l <= Z.of_nat (length l) * B.
Proof.
  induction 1 as [|x l Hx _ IH]; simpl sumZ; simpl length; [lia|].
  rewrite Nat2Z.inj_succ. lia.
Qed.

(** Distinct squares below [N * N] are at most [N] many. *)
Lemma squares_length N l :
  0 <= N -> NoDup l ->
  Forall (fun x => is_square x /\ x < N * N) l ->
  (length l <= Z.to_nat N)%nat.
Proof.
  intros HN Hnd Hall. rewrite Forall_forall in Hall.
  assert (Hroot : forall x, x ∈ l -> 0 <= x /\ Z.sqrt x * Z.sqrt x = x).
  { intros x Hx. destruct (Hall x Hx) as [Hsq _].
    assert (0 <= x) by (destruct Hsq as [k ->]; apply Z.square_nonneg).
    split; [assumption | apply sqrt_square_iff; assumption]. }
  rewrite <- (length_fmap Z.sqrt l), <- (length_seqZ 0 N).
  apply submseteq_length, NoDup_submseteq.
  - apply NoDup_fmap_2_strong; [|assumption].
    intros x y Hx Hy Heq.
    destruct (Hroot x Hx) as [_ <-], (Hroot y Hy) as [_ <-]. congruence.
  - intros r Hr. apply list_elem_of_fmap in Hr as (x & -> & Hx).
    apply elem_of_seqZ. destruct (Hroot x Hx) as [H0 _], (Hall x Hx) as [_ Hlt].
    pose proof (Z.sqrt_nonneg x). split; [lia|].
    apply Z.lt_le_trans with N; [|lia]. apply Z.sqrt_lt_square; lia.
Qed.

(** ** Standard output *)

Lemma string_app_cons ch (s1 s2 : string) :
  String ch s1 +:+ s2 = String ch (s1 +:+ s2).
Proof. reflexivity. Qed.

Lemma string_app_assoc (s1 s2 s3 : string) :
  (s1 +:+ s2) +:+ s3 = s1 +:+ (s2 +:+ s3).
Proof.
  induction s1 as [|ch s1 IH]; [reflexivity|].
  rewrite !string_app_cons, IH. reflexivity.
Qed.

Lemma string_app_empty_r (s : string) : s +:+ EmptyString = s.
Proof.
  induction s as [|ch s IH]; [reflexivity|].
  rewrite string_app_cons, IH. reflexivity.
Qed.

Lemma unlines_cons l ls : unlines (l :: ls) = l +:+ endl +:+ unlines ls.
Proof. reflexivity. Qed.

Lemma unlines_app ls1 ls2 : unlines (ls1 ++ ls2) = unlines ls1 +:+ unlines ls2.
Proof.
  induction ls1 as [|l ls1 IH]; [reflexivity|].
  rewrite <- app_comm_cons, !unlines_cons, IH, !string_app_assoc. reflexivity.
Qed.

Lemma foldl_print_root order : forall out,
  Forall (fun sol => 0 <= sol < 2 ^ 52) order ->
  foldl print_root out order =
    out +:+ unlines (map (fun sol => pretty (Z.sqrt sol)) order).
Proof.
  induction order as [|sol order IH]; intros out Hall.
  - simpl. rewrite string_app_empty_r. reflexivity.
  - inversion Hall as [|? ? Hsol Hrest]; subst.
    change (foldl print_root out (sol :: order))
      with (foldl print_root (print_root out sol) order).
    rewrite IH by assumption. unfold print_root.
    rewrite to_i64_sqrt_of_i64 by assumption.
    rewrite map_cons, unlines_cons, !string_app_assoc. reflexivity.
Qed.

Lemma report_expected order :
  Forall (fun sol => 0 <= sol < 2 ^ 52) order ->
  I64.MIN <= sumZ order <= I64.MAX ->
  report order = expected_output order (sumZ order).
Proof.
  intros Hall Hsum. unfold report, expected_output.
  rewrite foldl_print_root, accumulate_exact, unlines_app by assumption.
  rewrite !unlines_cons. change (unlines []) with EmptyString.
  rewrite string_app_empty_r, !string_app_assoc. reflexivity.
Qed.

(** ** The report of [main] *)

Lemma solutions_sum_fits sols order :
  sols_inv BOUND sols -> order ≡ₚ elements sols ->
  Forall (fun sol => 0 <= sol < 2 ^ 52) order /\
  I64.MIN <= sumZ order <= I64.MAX.
Proof.
  intros Hinv Hperm.
  assert (Hmem : forall x, x ∈ order ->
            is_square x /\ x < 1000000 * 1000000 /\ 0 <= x).
  { intros x Hx. rewrite Hperm in Hx. apply elem_of_elements in Hx.
    destruct (Hinv x Hx) as (_ & Hsq & Hlt). repeat split; [assumption .. |].
    destruct Hsq as [k ->]. apply Z.square_nonneg. }
  assert (Hnd : NoDup order) by (rewrite Hperm; apply NoDup_elements).
  assert (Hlen : (length order <= Z.to_nat 1000000)%nat).
  { apply squares_length; [lia | assumption |].
    apply Forall_forall. intros x Hx. destruct (Hmem x Hx) as (? & ? & _). auto. }
  assert (Hall : Forall (fun x => 0 <= x < BOUND) order).
  { apply Forall_forall. intros x Hx. destruct (Hmem x Hx) as (_ & ? & ?).
    unfold BOUND. lia. }
  split.
  - apply Forall_forall. intros x Hx. rewrite Forall_forall in Hall.
    specialize (Hall x Hx). unfold BOUND in Hall. lia.
  - pose proof (sumZ_bound BOUND order Hall) as Hsum.
    unfold BOUND, I64.MIN, I64.MAX in *. nia.
Qed.

Lemma main_report iter fuel sols :
  (forall s, iter s ≡ₚ elements s) ->
  search BOUND A_LIMIT fuel = Some sols ->
  main iter fuel =
    Some (expected_output (iter sols) (sumZ (elements sols)), 0).
Proof.
  intros Hiter Hrun. unfold main. rewrite Hrun. simpl. do 2 f_equal.
  assert (Hinv : sols_inv BOUND sols).
  { apply (search_inv BOUND ltac:(unfold BOUND; lia) A_LIMIT ltac:(lia) fuel).
    assumption. }
  destruct (solutions_sum_fits sols (iter sols) Hinv (Hiter sols)) as [Hall Hsum].
  rewrite report_expected by assumption.
  rewrite (sumZ_perm _ _ (Hiter sols)). reflexivity.
Qed.

(** ** The small instance: bound 100000 *)

Lemma search_small_47 :
  search 100000 47 400 = Some {[ 9; 10404; 16900; 97344 ]}.
Proof. vm_compute. reflexivity. Qed.

Lemma search_small Alimit fuel sols :
  47 <= Alimit <= A_LIMIT ->
  search 100000 Alimit fuel = Some sols ->
  sols = {[ 9; 10404; 16900; 97344 ]}.
Proof.
  intros HA Hrun. apply set_eq. intros n.
  rewrite (search_spec 100000 ltac:(lia) Alimit ltac:(lia) fuel sols Hrun n).
  rewrite (search_spec 100000 ltac:(lia) 47 ltac:(unfold A_LIMIT; lia)
             400%nat _ search_small_47 n).
  split; intros (a & b & c & Hb & Ha & Hc & Hn & Hlt & Hsq);
    exists a, b, c; (split; [assumption|]);
    (split; [|repeat split; assumption]); [|lia].
  destruct (Z.lt_ge_cases a 47) as [|Hge]; [assumption|].
  pose proof (candidate_value_pos a b c ltac:(lia) ltac:(lia) Hc).
  assert (47 ^ 3 <= a ^ 3) by (apply Z.pow_le_mono_l; lia).
  assert (0 < b ^ 2) by (apply Z.pow_pos_nonneg; lia).
  assert (1 <= c ^ 2) by nia.
  assert (a ^ 3 <= c ^ 2 * a ^ 3) by nia.
  assert (c ^ 2 * a ^ 3 <= c ^ 2 * a ^ 3 * b) by nia.
  unfold candidate_value in Hn. nia.
Qed.

(** ** Wrap-around outside the 64-bit range *)

Lemma wrap_multiple k : I64.wrap (2 ^ 64 * k) = 0.
Proof.
  unfold I64.wrap. rewrite Z.add_comm, Z.mul_comm, Z_mod_plus_full.
  reflexivity.
Qed.

Lemma wrap_congruent z : exists k, I64.wrap z = z + 2 ^ 64 * k.
Proof.
  exists (- ((z + 2 ^ 63) / 2 ^ 64)). unfold I64.wrap.
  pose proof (Z.div_mod (z + 2 ^ 63) (2 ^ 64) ltac:(lia)). lia.
Qed.

Lemma mul_pow33_twice x : I64.mul (I64.mul x (2 ^ 33)) (2 ^ 33) = 0.
Proof.
  unfold I64.mul. destruct (wrap_congruent (x * 2 ^ 33)) as [k ->].
  replace ((x * 2 ^ 33 + 2 ^ 64 * k) * 2 ^ 33)
    with (2 ^ 64 * (x * 4 + k * 2 ^ 33)) by ring.
  apply wrap_multiple.
Qed.

Lemma mul_pow32_twice x : I64.mul (I64.mul x (2 ^ 32)) (2 ^ 32) = 0.
Proof.
  unfold I64.mul. destruct (wrap_congruent (x * 2 ^ 32)) as [k ->].
  replace ((x * 2 ^ 32 + 2 ^ 64 * k) * 2 ^ 32)
    with (2 ^ 64 * (x + k * 2 ^ 32)) by ring.
  apply wrap_multiple.
Qed.

(** For [a = 2^33] and [b = 2^32] every product is a multiple of [2^64]:
    the machine candidate is 0 for every [c]. *)
Lemma compute_candidate_degenerate c :
  compute_candidate (2 ^ 33) (2 ^ 32) c = 0.
Proof.
  unfold compute_candidate.
  rewrite mul_pow33_twice, mul_pow32_twice. reflexivity.
Qed.

Lemma c_loop_degenerate fuel : forall c sols,
  c_loop BOUND fuel (2 ^ 33) (2 ^ 32) c sols = None.
Proof.
  induction fuel as [|fuel IH]; intros c sols; [reflexivity|].
  rewrite c_loop_step, compute_candidate_degenerate.
  change (BOUND <=? 0) with false. apply IH.
Qed.

(** * The claims *)

(** C1.  Running the search with the bound 100000 in place of [10^12]
    (same loops, same candidate formula, same classifier, same set) with
    enough fuel produces the Solution Set [{9, 10404, 16900, 97344}], whose
    elements sum to exactly 124657, in whatever order they are added up.
    The limit of [a] may be the 10000 of [main] or anything down to 47. *)
Theorem small_bound_sum Alimit fuel :
  47 <= Alimit <= A_LIMIT ->
  (Z.to_nat (Z.sqrt 100000) < fuel)%nat ->
  exists sols,
    search 100000 Alimit fuel = Some sols /\
    sols = {[ 9; 10404; 16900; 97344 ]} /\
    sumZ (elements sols) = 124657 /\
    forall order, order ≡ₚ elements sols -> accumulate order 0 = 124657.
Proof.
  intros HA Hfuel.
  destruct (search_terminates 100000 ltac:(lia) Alimit ltac:(lia) fuel Hfuel)
    as [sols Hrun].
  exists sols. split; [assumption|].
  pose proof (search_small Alimit fuel sols HA Hrun) as ->.
  split; [reflexivity|].
  assert (Hsum : sumZ (elements ({[ 9; 10404; 16900; 97344 ]} : gset Z)) = 124657)
    by (vm_compute; reflexivity).
  split; [assumption|].
  intros order Hperm. rewrite accumulate_exact; rewrite (sumZ_perm _ _ Hperm), Hsum.
  - reflexivity.
  - unfold I64.MIN, I64.MAX. lia.
Qed.

Lemma small_bound_sum_witness :
  exists sols,
    search 100000 A_LIMIT 400 = Some sols /\
    sols = {[ 9; 10404; 16900; 97344 ]} /\
    sumZ (elements sols) = 124657 /\
    forall order, order ≡ₚ elements sols -> accumulate order 0 = 124657.
Proof.
  apply (small_bound_sum A_LIMIT 400).
  - unfold A_LIMIT. lia.
  - vm_compute. lia.
Defined.

(** C2.  For every [n] with [0 <= n < 10^12] (in particular below [10^7]),
    [is_perfect_square n] returns true iff [(floor (sqrt n))^2 = n], that
    is iff [n] is a perfect square. *)
Theorem is_perfect_square_correct n :
  0 <= n < BOUND ->
  is_perfect_square n = (Z.sqrt n * Z.sqrt n =? n) /\
  (is_perfect_square n = true <-> is_square n).
Proof.
  intros Hn. assert (0 <= n < 2 ^ 52) by (unfold BOUND in Hn; lia).
  split; [apply is_perfect_square_sqrt | apply is_perfect_square_true]; assumption.
Qed.

Lemma is_perfect_square_correct_witness :
  is_perfect_square 10404 = (Z.sqrt 10404 * Z.sqrt 10404 =? 10404) /\
  (is_perfect_square 10404 = true <-> is_square 10404).
Proof. apply (is_perfect_square_correct 10404). unfold BOUND. lia. Defined.

(** C3.  For every [k] the bit at index [(k*k) mod 64] is set in the table
    built by [quadratic_residues_mod<64>]; equivalently, when the bit at
    [n mod 64] is unset [n] is not a perfect square, so the fast-rejection
    branch of [is_perfect_square] never rejects a true square. *)
Theorem residue_table_sound :
  (forall k, Z.testbit quadratic_residues ((k * k) mod MODULUS) = true) /\
  (forall n, Z.testbit quadratic_residues (n mod MODULUS) = false ->
             ~ is_square n) /\
  (forall n, is_square n ->
             negb (Z.testbit quadratic_residues (to_size_t n mod MODULUS)) = false).
Proof.
  split; [|split].
  - intros k. apply square_residue_set. unfold MODULUS. lia.
  - intros n Hbit Hsq. apply is_square_residue in Hsq.
    rewrite to_size_t_mod_MODULUS in Hsq. congruence.
  - intros n Hsq. rewrite (is_square_residue n Hsq). reflexivity.
Qed.

Lemma residue_table_sound_witness :
  Z.testbit quadratic_residues ((7 * 7) mod MODULUS) = true /\ ~ is_square 7.
Proof.
  split.
  - apply (proj1 residue_table_sound 7).
  - apply (proj1 (proj2 residue_table_sound) 7). reflexivity.
Defined.

(** C4, as the claim states it, fails where the 64-bit evaluation
    overflows: for [a = 2^21], [b = c = 1] the exact value is [2^63 + 1] and
    [compute_candidate] returns [-2^63 + 1]. *)
Lemma compute_candidate_overflow :
  2097152 > 1 /\ 1 >= 1 /\
  compute_candidate 2097152 1 1 <> 1 ^ 2 * 2097152 ^ 3 * 1 + 1 * 1 ^ 2.
Proof. split; [lia|]. split; [lia|]. vm_compute. discriminate. Qed.

(** C4 (amended).  For every triple with [a > b >= 1] and [c >= 1] whose
    value [c²a³b + cb²] fits in a signed 64-bit integer, [r = cb²],
    [d = cab], [q = ca²] satisfy [r < d <= q], [compute_candidate a b c]
    is exactly [c²a³b + cb² = d*q + r], dividing it by [d] gives quotient
    [q] and remainder [r], and [r, d, q] are in geometric progression with
    ratio [a/b]. *)
Theorem candidate_is_progressive a b c :
  a > b -> b >= 1 -> c >= 1 ->
  c ^ 2 * a ^ 3 * b + c * b ^ 2 <= I64.MAX ->
  let r := c * b ^ 2 in
  let d := c * a * b in
  let q := c * a ^ 2 in
  0 < r /\ r < d /\ d <= q /\
  compute_candidate a b c = c ^ 2 * a ^ 3 * b + c * b ^ 2 /\
  compute_candidate a b c = d * q + r /\
  compute_candidate a b c / d = q /\
  compute_candidate a b c mod d = r /\
  d * b = r * a /\ q * b = d * a.
Proof.
  intros Hab Hb Hc Hmax r d q.
  destruct (compute_candidate_exact a b c ltac:(lia) ltac:(lia) ltac:(lia) Hmax)
    as [_ Hexact].
  rewrite Hexact. unfold candidate_value.
  assert (Hr : 0 < r) by (unfold r; nia).
  assert (Hrd : r < d) by (unfold r, d; nia).
  assert (Hdq : d <= q) by (unfold d, q; nia).
  assert (Hn : c ^ 2 * a ^ 3 * b + c * b ^ 2 = d * q + r) by (unfold r, d, q; ring).
  repeat split; try assumption.
  - rewrite Hn. symmetry. apply Z.div_unique with r; lia.
  - rewrite Hn. symmetry. apply Z.mod_unique with q; lia.
  - unfold r, d. ring.
  - unfold d, q. ring.
Qed.

Lemma candidate_is_progressive_witness :
  0 < 4 /\ 4 < 6 /\ 6 <= 9 /\
  compute_candidate 3 2 1 = 1 ^ 2 * 3 ^ 3 * 2 + 1 * 2 ^ 2 /\
  compute_candidate 3 2 1 = 6 * 9 + 4 /\
  compute_candidate 3 2 1 / 6 = 9 /\
  compute_candidate 3 2 1 mod 6 = 4 /\
  6 * 2 = 4 * 3 /\ 9 * 2 = 6 * 3.
Proof.
  apply (candidate_is_progressive 3 2 1); [lia | lia | lia |].
  unfold I64.MAX. lia.
Defined.

(** C5, as the claim states it, fails where the 64-bit evaluation
    overflows: for [a = b = 1] the candidate at [c = 3037000500] wraps to a
    negative number, below the candidate at [c = 3037000499]. *)
Lemma compute_candidate_not_monotone :
  1 >= 1 /\ 1 <= 3037000499 < 3037000500 /\
  ~ compute_candidate 1 1 3037000499 < compute_candidate 1 1 3037000500.
Proof. split; [lia|]. split; [lia|]. vm_compute. intros H. discriminate H. Qed.

(** C5 (amended).  For every pair with [a >= 1] and [b >= 1],
    [compute_candidate a b c] is strictly increasing in [c] over the
    [c >= 1] whose value [c²a³b + cb²] fits in a signed 64-bit integer. *)
Theorem compute_candidate_increasing a b c1 c2 :
  a >= 1 -> b >= 1 -> 1 <= c1 < c2 ->
  c2 ^ 2 * a ^ 3 * b + c2 * b ^ 2 <= I64.MAX ->
  compute_candidate a b c1 < compute_candidate a b c2.
Proof.
  intros Ha Hb Hc Hmax.
  pose proof (candidate_value_mono a b c1 c2 ltac:(lia) ltac:(lia) Hc) as Hmono.
  destruct (compute_candidate_exact a b c2 ltac:(lia) ltac:(lia) ltac:(lia) Hmax)
    as [_ ->].
  destruct (compute_candidate_exact a b c1 ltac:(lia) ltac:(lia) ltac:(lia))
    as [_ ->]; [|assumption].
  unfold candidate_value in *. lia.
Qed.

Lemma compute_candidate_increasing_witness :
  compute_candidate 2 1 1 < compute_candidate 2 1 2.
Proof.
  apply (compute_candidate_increasing 2 1 1 2); [lia | lia | lia |].
  unfold I64.MAX. lia.
Defined.

(** C6, as the claim states it, fails for pairs beyond the 64-bit range of
    the products: for [a = 2^33], [b = 2^32] the machine candidate is 0 for
    every [c], no [c] meets the bound and the inner loop never breaks. *)
Lemma inner_loop_diverges :
  2 ^ 33 >= 1 /\ 1 <= 2 ^ 32 < 2 ^ 33 /\
  (forall c, compute_candidate (2 ^ 33) (2 ^ 32) c < BOUND) /\
  (forall fuel sols, c_loop BOUND fuel (2 ^ 33) (2 ^ 32) 1 sols = None).
Proof.
  split; [lia|]. split; [lia|]. split.
  - intros c. rewrite compute_candidate_degenerate. reflexivity.
  - intros fuel sols. apply c_loop_degenerate.
Qed.

(** C6 (amended).  For every pair [(a, b)] with [1 <= b < a] whose first
    candidate [a³b + b²] fits in a signed 64-bit integer, which includes
    every pair with [a < 10^4] that [main] enumerates, the inner loop
    terminates: some [c >= 1], reached after candidates below the bound
    only, has [compute_candidate a b c >= 10^12], where the loop breaks.
    Hence the enumeration of [main] is finite and the program terminates:
    any fuel above [10^6] is enough. *)
Theorem enumeration_terminates :
  (forall a b, 1 <= b < a -> candidate_value a b 1 <= I64.MAX ->
     (exists c, 1 <= c /\
        (forall c', 1 <= c' < c -> compute_candidate a b c' < BOUND) /\
        BOUND <= compute_candidate a b c) /\
     (forall fuel sols, (Z.to_nat (Z.sqrt BOUND) < fuel)%nat ->
        is_Some (c_loop BOUND fuel a b 1 sols))) /\
  (forall a b, 1 <= b < a -> a < A_LIMIT -> candidate_value a b 1 <= I64.MAX) /\
  (forall iter fuel, (Z.to_nat (Z.sqrt BOUND) < fuel)%nat ->
     is_Some (search BOUND A_LIMIT fuel) /\ is_Some (main iter fuel)).
Proof.
  assert (HB : BOUND <= 2 ^ 52) by (unfold BOUND; lia).
  split; [|split].
  - intros a b Hb Hfirst. split.
    + destruct (c_loop_breaks BOUND a b HB ltac:(lia) ltac:(lia) Hfirst
                  (Z.to_nat (Z.sqrt BOUND)) 1 (reached_first _ _ _) ltac:(lia))
        as (c & Hc & Hr & Hbreak).
      exists c. split; [lia|]. split; [|assumption].
      intros c' Hc'.
      destruct (reached_c_spec BOUND a b HB ltac:(lia) ltac:(lia) Hfirst c Hr)
        as (_ & _ & Hbelow).
      specialize (Hbelow c' Hc').
      destruct (compute_candidate_exact a b c' ltac:(lia) ltac:(lia) ltac:(lia))
        as [_ ->]; [unfold I64.MAX; lia | assumption].
    + intros fuel sols Hfuel.
      apply (c_loop_terminates BOUND a b HB ltac:(lia) ltac:(lia) Hfirst
               fuel 1 sols (reached_first _ _ _)).
      replace (Z.sqrt BOUND + 1 - 1) with (Z.sqrt BOUND) by lia. assumption.
  - intros a b Hb Ha. apply first_candidate_fits; lia.
  - intros iter fuel Hfuel.
    destruct (search_terminates BOUND HB A_LIMIT ltac:(lia) fuel Hfuel)
      as [sols Hrun].
    split; [eauto|]. unfold main. rewrite Hrun. simpl. eauto.
Qed.

Lemma enumeration_terminates_witness :
  (exists c, 1 <= c /\
     (forall c', 1 <= c' < c -> compute_candidate 2 1 c' < BOUND) /\
     BOUND <= compute_candidate 2 1 c) /\
  is_Some (search BOUND A_LIMIT (Z.to_nat 1000001)).
Proof.
  assert (Hfuel : (Z.to_nat (Z.sqrt BOUND) < Z.to_nat 1000001)%nat)
    by (change (Z.sqrt BOUND) with 1000000; lia).
  split.
  - apply (proj1 enumeration_terminates 2 1); [lia|]. vm_compute. discriminate.
  - exact (proj1 (proj2 (proj2 enumeration_terminates) elements
                    (Z.to_nat 1000001) Hfuel)).
Defined.

(** C7.  At every point during the enumeration and after it, every member
    [n] of the Solution Set (a) is [c²a³b + cb²] for some integers
    [a > b >= 1], [c >= 1], (b) is a perfect square and (c) is below the
    bound, [10^12] in [main].  The empty initial set satisfies it as well. *)
Theorem solution_set_invariant Bound Alimit :
  Bound <= BOUND -> Alimit <= A_LIMIT ->
  sols_inv Bound ∅ /\
  (forall sols, during Bound Alimit sols -> sols_inv Bound sols) /\
  (forall fuel sols, search Bound Alimit fuel = Some sols -> sols_inv Bound sols).
Proof.
  intros HB HA. assert (Bound <= 2 ^ 52) by (unfold BOUND in HB; lia).
  split; [|split].
  - intros n Hin. apply not_elem_of_empty in Hin. contradiction.
  - intros sols. apply during_inv; assumption.
  - intros fuel sols. apply search_inv; assumption.
Qed.

Lemma solution_set_invariant_witness :
  sols_inv 100 ({[ 9 ]} ∪ ∅) /\ sols_inv 100 {[ 9 ]}.
Proof.
  assert (HB : 100 <= BOUND) by (unfold BOUND; lia).
  assert (HA : 5 <= A_LIMIT) by (unfold A_LIMIT; lia).
  split.
  - apply (proj1 (proj2 (solution_set_invariant 100 5 HB HA))).
    exists 20%nat, 2, 1, 2, ∅, ∅.
    split; [lia|]. split; [lia|]. split; [reflexivity|]. split; [reflexivity|].
    apply (inner_next 100 2 1 ∅ 1 ∅ (inner_first 100 2 1 ∅)).
    vm_compute. reflexivity.
  - apply (proj2 (proj2 (solution_set_invariant 100 5 HB HA)) 20%nat).
    vm_compute. reflexivity.
Defined.

(** C8.  For every triple [(a, b, c)] the enumeration of [main] reaches
    ([1 <= a < 10^4], [1 <= b < a], [c] from 1 up to and including the
    first one whose candidate meets the bound), no operation of
    [c*c*a*a*a*b + c*b*b] leaves the signed 64-bit range, so the machine
    result is the exact one; and when the candidate is classified, neither
    does [root*root] in the classifier nor the increment of [c]. *)
Theorem no_overflow_reached a b c :
  1 <= a < A_LIMIT -> 1 <= b < a -> 1 <= c ->
  (forall c', 1 <= c' < c -> compute_candidate a b c' < BOUND) ->
  compute_candidate_checked a b c = Some (c ^ 2 * a ^ 3 * b + c * b ^ 2) /\
  compute_candidate a b c = c ^ 2 * a ^ 3 * b + c * b ^ 2 /\
  (compute_candidate a b c < BOUND ->
     let root :=
       Double.to_i64 (Double.sqrt (Double.of_i64 (compute_candidate a b c))) in
     root_check_checked (compute_candidate a b c) = Some (root * root) /\
     I64.mul root root = root * root /\
     I64.checked_add c 1 = Some (c + 1)).
Proof.
  intros Ha Hb Hc Hbelow.
  assert (HB : BOUND <= 2 ^ 52) by (unfold BOUND; lia).
  pose proof (first_candidate_fits a b Hb ltac:(lia)) as Hfirst.
  pose proof (reached_c_intro BOUND a b HB ltac:(lia) ltac:(lia) Hfirst c Hc Hbelow)
    as Hr.
  destruct (reached_c_exact BOUND a b HB ltac:(lia) ltac:(lia) Hfirst c Hr)
    as [Hchecked Hexact].
  fold (candidate_value a b c).
  split; [assumption|]. split; [assumption|].
  rewrite Hexact. intros Hlt root.
  pose proof (candidate_value_pos a b c ltac:(lia) ltac:(lia) Hc) as Hpos.
  destruct (root_check_exact (candidate_value a b c) ltac:(nia))
    as (Hroot & Hchk & Hmul).
  fold root in Hroot, Hchk, Hmul. unfold root_check_checked. fold root.
  rewrite Hchk, Hmul, Hroot.
  split; [reflexivity|]. split; [reflexivity|].
  apply checked_add_in_range. unfold I64.MIN, I64.MAX. nia.
Qed.

Lemma no_overflow_reached_witness :
  compute_candidate_checked 3 2 2 = Some (2 ^ 2 * 3 ^ 3 * 2 + 2 * 2 ^ 2) /\
  compute_candidate 3 2 2 = 2 ^ 2 * 3 ^ 3 * 2 + 2 * 2 ^ 2 /\
  (compute_candidate 3 2 2 < BOUND ->
     let root :=
       Double.to_i64 (Double.sqrt (Double.of_i64 (compute_candidate 3 2 2))) in
     root_check_checked (compute_candidate 3 2 2) = Some (root * root) /\
     I64.mul root root = root * root /\
     I64.checked_add 2 1 = Some (2 + 1)).
Proof.
  apply (no_overflow_reached 3 2 2); [unfold A_LIMIT; lia | lia | lia |].
  intros c' Hc'. assert (c' = 1) as -> by lia. vm_compute. reflexivity.
Defined.

(** C9.  Whatever order the set is iterated in, once the enumeration has
    completed the standard output of [main] is one line per distinct element
    of the Solution Set with that element's integer square root, then a
    blank line, then a line with the decimal sum of all elements, and the
    exit status is 0. *)
Theorem main_output iter fuel :
  (forall s, iter s ≡ₚ elements s) ->
  (Z.to_nat (Z.sqrt BOUND) < fuel)%nat ->
  exists sols,
    search BOUND A_LIMIT fuel = Some sols /\
    main iter fuel =
      Some (unlines (map (fun sol => pretty (Z.sqrt sol)) (iter sols)
                     ++ [EmptyString; pretty (sumZ (elements sols))]), 0) /\
    NoDup (iter sols) /\
    length (iter sols) = size sols /\
    (forall sol, sol ∈ iter sols <-> sol ∈ sols).
Proof.
  intros Hiter Hfuel.
  destruct (search_terminates BOUND ltac:(unfold BOUND; lia) A_LIMIT ltac:(lia)
              fuel Hfuel) as [sols Hrun].
  exists sols. split; [assumption|]. split; [|split; [|split]].
  - apply main_report; assumption.
  - rewrite (Hiter sols). apply NoDup_elements.
  - rewrite (Hiter sols). reflexivity.
  - intros sol. rewrite (Hiter sols). apply elem_of_elements.
Qed.

Lemma main_output_witness :
  exists sols,
    search BOUND A_LIMIT (Z.to_nat 1000001) = Some sols /\
    main elements (Z.to_nat 1000001) =
      Some (unlines (map (fun sol => pretty (Z.sqrt sol)) (elements sols)
                     ++ [EmptyString; pretty (sumZ (elements sols))]), 0) /\
    NoDup (elements sols) /\
    length (elements sols) = size sols /\
    (forall sol, sol ∈ elements sols <-> sol ∈ sols).
Proof.
  assert (Hfuel : (Z.to_nat (Z.sqrt BOUND) < Z.to_nat 1000001)%nat)
    by (change (Z.sqrt BOUND) with 1000000; lia).
  exact (main_output elements (Z.to_nat 1000001) (fun s => reflexivity _) Hfuel).
Defined.

(** C10, as the claim states it, fails where the 64-bit evaluation
    overflows: for [a = 2^21 >= 10^4], [b = c = 1] the machine candidate is
    negative. *)
Lemma compute_candidate_large_a_wraps :
  2097152 >= 10 ^ 4 /\ 1 >= 1 /\
  ~ compute_candidate 2097152 1 1 >= 10 ^ 12.
Proof. split; [lia|]. split; [lia|]. vm_compute. intros H. apply H. reflexivity. Qed.

(** C10 (amended).  For every triple with [a >= 10^4], [b >= 1], [c >= 1]
    the value [c²a³b + cb²] is at least [10^12], and so is
    [compute_candidate a b c] whenever that value fits in a signed 64-bit
    integer.  Therefore the restriction of the outer loop to [a < 10000]
    excludes no candidate below the bound: the final Solution Set holds
    every square [c²a³b + cb² < 10^12] with [a > b >= 1] and [c >= 1],
    whatever the size of [a]. *)
Theorem outer_limit_complete :
  (forall a b c, a >= 10 ^ 4 -> b >= 1 -> c >= 1 ->
     c ^ 2 * a ^ 3 * b + c * b ^ 2 >= 10 ^ 12 /\
     (c ^ 2 * a ^ 3 * b + c * b ^ 2 <= I64.MAX ->
      compute_candidate a b c >= 10 ^ 12)) /\
  (forall fuel sols, search BOUND A_LIMIT fuel = Some sols ->
     forall n, n ∈ sols <->
       exists a b c, a > b /\ b >= 1 /\ c >= 1 /\
         n = c ^ 2 * a ^ 3 * b + c * b ^ 2 /\ n < 10 ^ 12 /\ is_square n).
Proof.
  split.
  - intros a b c Ha Hb Hc.
    pose proof (candidate_value_large_a a b c
                  ltac:(unfold A_LIMIT; lia) ltac:(lia) ltac:(lia)) as Hlarge.
    unfold BOUND, candidate_value in Hlarge. split; [lia|].
    intros Hmax.
    destruct (compute_candidate_exact a b c ltac:(lia) ltac:(lia) ltac:(lia) Hmax)
      as [_ ->].
    unfold candidate_value. lia.
  - intros fuel sols Hrun n.
    rewrite (search_spec BOUND ltac:(unfold BOUND; lia) A_LIMIT ltac:(lia)
               fuel sols Hrun n).
    unfold candidate_value. change (10 ^ 12) with BOUND. split.
    + intros (a & b & c & Hb & Ha & Hc & Hn).
      exists a, b, c. repeat split; try lia; apply Hn.
    + intros (a & b & c & Hab & Hb & Hc & Hn & Hlt & Hsq).
      exists a, b, c. split; [lia|]. split; [|repeat split; (lia || assumption)].
      destruct (Z.lt_ge_cases a A_LIMIT) as [|Hge]; [assumption|].
      pose proof (candidate_value_large_a a b c Hge ltac:(lia) ltac:(lia)) as Hlarge.
      unfold candidate_value in Hlarge. lia.
Qed.

Lemma outer_limit_complete_witness :
  1 ^ 2 * 10000 ^ 3 * 1 + 1 * 1 ^ 2 >= 10 ^ 12 /\
  compute_candidate 10000 1 1 >= 10 ^ 12.
Proof.
  destruct (proj1 outer_limit_complete 10000 1 1) as [H1 H2]; [lia | lia | lia |].
  split; [exact H1|]. apply H2. unfold I64.MAX. lia.
Defined.

(** * Further properties of the code *)

(** ** Binary64 beyond 53 bits: conversion with rounding *)

Section DoubleRounding.
Import Double.

Lemma iter_pos_nat {A} (f : A -> A) p x :
  SpecFloat.iter_pos f p x = Nat.iter (Pos.to_nat p) f x.
Proof.
  revert x. induction p as [p IH | p IH |]; intros x; simpl SpecFloat.iter_pos.
  - rewrite !IH, Pos2Nat.inj_xI, <- Nat.iter_add.
    replace (Datatypes.S (2 * Pos.to_nat p)) with (Pos.to_nat p + Pos.to_nat p + 1)%nat by lia.
    rewrite (Nat.iter_add (Pos.to_nat p + Pos.to_nat p) 1). reflexivity.
  - rewrite !IH, Pos2Nat.inj_xO, <- Nat.iter_add. f_equal. lia.
  - reflexivity.
Qed.

Lemma shr_1_nonneg m r s :
  0 <= m ->
  shr_1 (Build_shr_record m r s) = Build_shr_record (m / 2) (Z.odd m) (r || s).
Proof.
  intros Hm. rewrite <- Z.div2_div.
  destruct m as [|p|p]; [reflexivity | | lia]. destruct p; reflexivity.
Qed.

(** [k] right shifts of an exact record: the quotient, the last bit shifted
    out, and whether anything below it was set. *)
Lemma shr_iter m (k : nat) :
  0 <= m ->
  Nat.iter (Datatypes.S k) shr_1 (Build_shr_record m false false) =
    Build_shr_record (m / 2 ^ Z.of_nat (Datatypes.S k))
      (Z.testbit m (Z.of_nat k))
      (negb (m mod 2 ^ Z.of_nat k =? 0)).
Proof.
  intros Hm. induction k as [|k IH].
  - rewrite Nat.iter_succ. unfold Nat.iter, nat_rect.
    rewrite shr_1_nonneg by assumption.
    change (Z.of_nat 1) with 1. change (Z.of_nat 0) with 0.
    rewrite Z.pow_1_r, Z.pow_0_r, Z.mod_1_r, Z.bit0_odd. reflexivity.
  - rewrite Nat.iter_succ, IH.
    assert (H2k : 0 < 2 ^ Z.of_nat (Datatypes.S k)) by (apply Z.pow_pos_nonneg; lia).
    rewrite shr_1_nonneg by (apply Z.div_pos; lia).
    f_equal.
    + rewrite Z.div_div by lia. f_equal.
      rewrite (Nat2Z.inj_succ (Datatypes.S k)), Z.pow_succ_r by lia. lia.
    + rewrite <- Z.bit0_odd, Z.div_pow2_bits by lia. f_equal; lia.
    + rewrite (Nat2Z.inj_succ k), Z.pow_succ_r by lia.
      pose proof (Z.testbit_spec' m (Z.of_nat k) ltac:(lia)) as Hbit.
      set (P := 2 ^ Z.of_nat k) in *.
      assert (HP : 0 < P) by (apply Z.pow_pos_nonneg; lia).
      rewrite (Z.mul_comm 2 P), Z.rem_mul_r by lia.
      pose proof (Z.mod_pos_bound m P HP).
      pose proof (Z.mod_pos_bound (m / P) 2 ltac:(lia)).
      destruct (Z.testbit m (Z.of_nat k)); simpl Z.b2z in Hbit;
        destruct (Z.eqb_spec (m mod P) 0) as [Hz|Hz];
        destruct (Z.eqb_spec (m mod P + P * ((m / P) mod 2)) 0) as [Hw|Hw];
        simpl; try reflexivity; nia.
Qed.

(** Rounding a 53-digit mantissa whose increment carries into a 54th digit:
    one more shift, the exponent goes up by one. *)
Lemma binary_round_aux_carry m e l :
  2 ^ 52 <= m < 2 ^ 53 -> -1074 <= e <= 970 ->
  round_nearest_even m l = 2 ^ 53 ->
  binary_round_aux prec emax false m e l =
    S754_finite false (Z.to_pos (2 ^ 52)) (e + 1).
Proof.
  intros Hm He Hr. unfold binary_round_aux.
  rewrite shr_fexp_canonical.
  2:{ rewrite (Zdigits2_eq m 53) by lia. unfold fexp, emin, prec, emax. lia. }
  rewrite shr_m_of_loc, loc_of_shr_record_of_loc, Hr.
  unfold shr_fexp. rewrite (Zdigits2_eq (2 ^ 53) 54) by lia.
  replace (fexp prec emax (54 + e) - e) with 1
    by (unfold fexp, emin, prec, emax; lia).
  unfold shr. simpl SpecFloat.iter_pos. simpl shr_m.
  unfold prec, emax. destruct (Z.leb_spec (e + 1) (1024 - 53)); [reflexivity | lia].
Qed.

(** The value of a rounded mantissa after truncation to an integer does not
    depend on whether the carry happened. *)
Lemma to_i64_binary_round_aux m e l :
  2 ^ 52 <= m < 2 ^ 53 -> -52 <= e <= -21 ->
  to_i64 (binary_round_aux prec emax false m e l) =
    round_nearest_even m l / 2 ^ (- e).
Proof.
  intros Hm He.
  assert (Hr : m <= round_nearest_even m l <= m + 1).
  { destruct l as [|[]]; simpl; try lia. destruct (Z.even m); lia. }
  assert (HP : 0 < 2 ^ (- e)) by (apply Z.pow_pos_nonneg; lia).
  assert (HPle : 2 ^ 21 <= 2 ^ (- e)) by (apply Z.pow_le_mono_r; lia).
  assert (Hq : 0 <= round_nearest_even m l / 2 ^ (- e) <= 2 ^ 32).
  { split; [apply Z.div_pos; lia|].
    apply Z.div_le_upper_bound; [lia|].
    assert (2 ^ 21 * 2 ^ 32 <= 2 ^ (- e) * 2 ^ 32)
      by (apply Z.mul_le_mono_nonneg_r; lia).
    change (2 ^ 21 * 2 ^ 32) with (2 ^ 53) in *. lia. }
  destruct (Z.eq_dec (round_nearest_even m l) (2 ^ 53)) as [Hc | Hc].
  - rewrite binary_round_aux_carry by lia. rewrite Hc. unfold to_i64.
    rewrite Z2Pos.id by lia. rewrite Z.shiftl_div_pow2 by lia.
    replace (- (e + 1)) with (- e - 1) by lia.
    assert (Heq : 2 ^ 52 / 2 ^ (- e - 1) = 2 ^ 53 / 2 ^ (- e)).
    { replace (2 ^ (- e)) with (2 * 2 ^ (- e - 1))
        by (rewrite <- Z.pow_succ_r by lia; f_equal; lia).
      change (2 ^ 53) with (2 * 2 ^ 52).
      rewrite Z.div_mul_cancel_l; [reflexivity | | lia].
      apply Z.pow_nonzero; lia. }
    rewrite Heq. rewrite Hc in Hq.
    unfold I64.in_range, I64.MIN, I64.MAX.
    destruct (Z.leb_spec (- 2 ^ 63) (2 ^ 53 / 2 ^ (- e))); [|lia].
    destruct (Z.leb_spec (2 ^ 53 / 2 ^ (- e)) (2 ^ 63 - 1)); [reflexivity | lia].
  - rewrite binary_round_aux_normal by lia. unfold to_i64.
    rewrite Z2Pos.id by lia. rewrite Z.shiftl_div_pow2 by lia.
    unfold I64.in_range, I64.MIN, I64.MAX.
    destruct (Z.leb_spec (- 2 ^ 63) (round_nearest_even m l / 2 ^ (- e))); [|lia].
    destruct (Z.leb_spec (round_nearest_even m l / 2 ^ (- e)) (2 ^ 63 - 1));
      [reflexivity | lia].
Qed.

(** The truncated square root of a normal double [M * 2^E]: the integer
    square root of the mantissa scaled by an even power of two, rounded to
    nearest, then scaled back. *)
Lemma to_i64_sqrt_finite M E :
  2 ^ 52 <= M < 2 ^ 53 -> -52 <= E <= 11 ->
  let K := 26 - E / 2 in
  let m' := M * 2 ^ (E + 2 * K) in
  let q := Z.sqrt m' in
  to_i64 (sqrt (S754_finite false (Z.to_pos M) E)) =
    (if m' - q * q <=? q then q else q + 1) / 2 ^ K.
Proof.
  intros HM HE K m' q.
  assert (HE2 : -26 <= E / 2 <= 5).
  { split; [apply Z.div_le_lower_bound; lia|].
    assert (E / 2 < 6) by (apply Z.div_lt_upper_bound; lia). lia. }
  assert (HK : 21 <= K <= 52) by (unfold K; lia).
  assert (Hs : 52 <= E + 2 * K <= 53).
  { unfold K. pose proof (Z.mod_pos_bound E 2). pose proof (Z.div_mod E 2). lia. }
  unfold sqrt, SFsqrt, SFsqrt_core_binary.
  rewrite Z2Pos.id by lia.
  rewrite (Zdigits2_eq _ 53) by lia.
  rewrite !Z.div2_div.
  assert (He' : Z.min (fexp prec emax ((53 + E + 1) / 2)) (E / 2) = - K).
  { unfold fexp, emin, prec, emax, K.
    replace (53 + E + 1) with (E + 27 * 2) by lia.
    rewrite Z.div_add by lia. lia. }
  rewrite He'.
  assert (Hpos : exists p, E - 2 * - K = Z.pos p).
  { exists (Z.to_pos (E + 2 * K)). rewrite Z2Pos.id; lia. }
  destruct Hpos as [p Hp]. rewrite Hp. cbv iota. rewrite <- Hp.
  rewrite Z.shiftl_mul_pow2 by lia.
  replace (E - 2 * - K) with (E + 2 * K) by lia. fold m'.
  assert (Hm'b : 2 ^ 52 * 2 ^ 52 <= m' < 2 ^ 53 * 2 ^ 53).
  { unfold m'.
    assert (2 ^ 52 <= 2 ^ (E + 2 * K)) by (apply Z.pow_le_mono_r; lia).
    assert (2 ^ (E + 2 * K) <= 2 ^ 53) by (apply Z.pow_le_mono_r; lia).
    split; nia. }
  pose proof (Z.sqrtrem_spec m' ltac:(lia)) as Hqr.
  pose proof (Z.sqrtrem_sqrt m') as Hfst.
  change IntDef.Z.sqrtrem with Z.sqrtrem.
  destruct (Z.sqrtrem m') as [q0 r]. simpl in Hfst. fold q in Hfst. subst q0.
  destruct Hqr as [Hq Hr].
  assert (Hqb : 2 ^ 52 <= q < 2 ^ 53).
  { split.
    - apply Z.sqrt_le_square; lia.
    - apply Z.sqrt_lt_square; lia. }
  rewrite to_i64_binary_round_aux by lia.
  rewrite Z.opp_involutive. f_equal.
  replace (m' - q * q) with r by lia.
  destruct (Z.eqb_spec r 0) as [-> | Hr0].
  - destruct (Z.leb_spec 0 q); [reflexivity | lia].
  - destruct (Z.leb_spec r q); reflexivity.
Qed.

(** Round to nearest after dropping [t] low bits: the kept part goes up by
    one only when the dropped part is at least half, and stays only when it
    is at most half. *)
Lemma round_dropped_bits n t :
  0 <= n -> 1 <= t ->
  let m1 := n / 2 ^ t in
  let l := loc_of_shr_record
             (Build_shr_record m1 (Z.testbit n (t - 1))
                (negb (n mod 2 ^ (t - 1) =? 0))) in
  (round_nearest_even m1 l = m1 /\ 2 * (n mod 2 ^ t) <= 2 ^ t) \/
  (round_nearest_even m1 l = m1 + 1 /\ 2 ^ t <= 2 * (n mod 2 ^ t)).
Proof.
  intros Hn Ht m1 l.
  pose proof (Z.testbit_spec' n (t - 1) ltac:(lia)) as Hbit.
  set (P := 2 ^ (t - 1)) in *.
  assert (HP : 0 < P) by (apply Z.pow_pos_nonneg; lia).
  assert (H2P : 2 ^ t = P * 2).
  { unfold P. rewrite Z.mul_comm, <- Z.pow_succ_r by lia. f_equal. lia. }
  rewrite H2P, Z.rem_mul_r by lia.
  pose proof (Z.mod_pos_bound n P HP).
  subst l. destruct (Z.testbit n (t - 1)); simpl Z.b2z in Hbit; rewrite <- Hbit;
    destruct (Z.eqb_spec (n mod P) 0) as [Hz | Hz]; simpl.
  - destruct (Z.even m1); [left | right]; split; lia.
  - right. split; lia.
  - left. split; lia.
  - left. split; lia.
Qed.

(** Conversion of an integer of 54 to 63 bits: a 53-digit mantissa, an
    exponent between the number of dropped bits [t] and 11, and an error
    of at most half a unit in the last place. *)
Lemma of_i64_large n :
  2 ^ 53 <= n < 2 ^ 63 ->
  let t := Z.log2 n - 52 in
  exists M E,
    of_i64 n = S754_finite false (Z.to_pos M) E /\
    2 ^ 52 <= M < 2 ^ 53 /\ t <= E <= 11 /\
    2 * Z.abs (M * 2 ^ E - n) <= 2 ^ t.
Proof.
  intros Hn t. destruct n as [|p|p]; try lia.
  pose proof (Z.log2_spec (Zpos p) ltac:(lia)) as Hl.
  assert (Hl53 : 53 <= Z.log2 (Zpos p)) by (apply Z.log2_le_pow2; lia).
  assert (Hl63 : Z.log2 (Zpos p) < 63) by (apply Z.log2_lt_pow2; lia).
  assert (Hd : Zpos (digits2_pos p) = t + 53).
  { change (Zpos (digits2_pos p)) with (Zdigits2 (Zpos p)).
    rewrite Zdigits2_log2 by lia. unfold t. lia. }
  assert (Ht : 1 <= t <= 10) by (unfold t; lia).
  unfold of_i64, binary_normalize, binary_round, shl_align.
  rewrite Hd.
  replace (fexp prec emax (t + 53 + 0)) with t
    by (unfold fexp, emin, prec, emax; lia).
  replace (t - 0) with t by lia.
  destruct t as [|tp|tp] eqn:Et; try lia.
  unfold binary_round_aux at 1. unfold shr_fexp at 1.
  change (Zdigits2 (Z.pos p)) with (Zpos (digits2_pos p)). rewrite Hd.
  replace (fexp prec emax (Z.pos tp + 53 + 0) - 0) with (Z.pos tp)
    by (unfold fexp, emin, prec, emax; lia).
  unfold shr_record_of_loc, shr. rewrite iter_pos_nat.
  destruct (Pos.to_nat tp) as [|k] eqn:Ek; [lia|].
  rewrite shr_iter by lia.
  replace (Z.of_nat (Datatypes.S k)) with (Z.pos tp) by lia.
  replace (Z.of_nat k) with (Z.pos tp - 1) by lia.
  cbv beta iota. simpl shr_m.
  set (n := Z.pos p) in *. set (T := Z.pos tp) in *.
  assert (HT : 0 < 2 ^ T) by (apply Z.pow_pos_nonneg; lia).
  assert (Hm1 : 2 ^ 52 <= n / 2 ^ T < 2 ^ 53).
  { assert (Hlo : 2 ^ 52 * 2 ^ T <= n).
    { rewrite <- Z.pow_add_r by lia.
      replace (52 + T) with (Z.log2 n) by lia. lia. }
    assert (Hhi : n < 2 ^ 53 * 2 ^ T).
    { rewrite <- Z.pow_add_r by lia.
      replace (53 + T) with (Z.succ (Z.log2 n)) by lia. lia. }
    split; [apply Z.div_le_lower_bound; lia | apply Z.div_lt_upper_bound; lia]. }
  pose proof (Z.div_mod n (2 ^ T) ltac:(lia)) as Hdm.
  pose proof (Z.mod_pos_bound n (2 ^ T) HT) as Hrem.
  pose proof (round_dropped_bits n T ltac:(lia) ltac:(lia)) as Hround.
  cbv zeta in Hround.
  set (m2 := round_nearest_even (n / 2 ^ T) _) in *.
  assert (Herr : 2 * Z.abs (m2 * 2 ^ T - n) <= 2 ^ T).
  { destruct Hround as [[-> Hle] | [-> Hge]]; lia. }
  assert (Hm2 : 2 ^ 52 <= m2 <= 2 ^ 53) by (destruct Hround as [[-> _] | [-> _]]; lia).
  destruct (Z.eq_dec m2 (2 ^ 53)) as [Hc | Hc].
  - exists (2 ^ 52), (T + 1). rewrite Hc in *.
    unfold shr_fexp. rewrite (Zdigits2_eq (2 ^ 53) 54) by lia.
    replace (fexp prec emax (54 + (0 + T)) - (0 + T)) with 1
      by (unfold fexp, emin, prec, emax; lia).
    unfold shr. simpl SpecFloat.iter_pos. simpl shr_m.
    unfold prec, emax.
    destruct (Z.leb_spec (0 + T + 1) (1024 - 53)); [|lia].
    split; [f_equal; lia|]. split; [lia|]. split; [lia|].
    replace (2 ^ 52 * 2 ^ (T + 1)) with (2 ^ 53 * 2 ^ T); [assumption|].
    rewrite Z.pow_add_r by lia. change (2 ^ 53) with (2 ^ 52 * 2 ^ 1). ring.
  - exists m2, T.
    rewrite shr_fexp_canonical.
    2:{ rewrite (Zdigits2_eq m2 53) by lia. unfold fexp, emin, prec, emax. lia. }
    simpl shr_m. destruct m2 as [|m2p|m2p] eqn:Em2; try lia.
    unfold prec, emax. destruct (Z.leb_spec (0 + T) (1024 - 53)); [|lia].
    split; [f_equal|]. split; [lia|]. split; [lia | assumption].
Qed.

(** Conversion of any integer from [2^52] up to the top of the 64-bit
    range, with [t] the number of bits dropped. *)
Lemma of_i64_rounded n :
  2 ^ 52 <= n < 2 ^ 63 ->
  exists M E t,
    of_i64 n = S754_finite false (Z.to_pos M) E /\
    2 ^ 52 <= M < 2 ^ 53 /\ 0 <= t <= E /\ E <= 11 /\
    2 ^ (t + 52) <= n /\
    2 * Z.abs (M * 2 ^ E - n) <= 2 ^ t.
Proof.
  intros Hn. destruct (Z.lt_ge_cases n (2 ^ 53)) as [Hlt | Hge].
  - exists n, 0, 0. rewrite of_i64_normal by lia.
    assert (Hl : Z.log2 n = 52) by (apply Z.log2_unique; lia).
    rewrite Hl. simpl. rewrite Z.mul_1_r.
    repeat split; try lia.
  - destruct (of_i64_large n ltac:(lia)) as (M & E & Hof & HM & HE & Herr).
    pose proof (Z.log2_spec n ltac:(lia)) as [Hl _].
    assert (53 <= Z.log2 n) by (apply Z.log2_le_pow2; lia).
    exists M, E, (Z.log2 n - 52).
    replace (Z.log2 n - 52 + 52) with (Z.log2 n) by lia.
    repeat split; try assumption; lia.
Qed.

(** The truncated root of a double stays within [0, 2^32]. *)
Lemma to_i64_sqrt_finite_range M E :
  2 ^ 52 <= M < 2 ^ 53 -> -52 <= E <= 11 ->
  0 <= to_i64 (sqrt (S754_finite false (Z.to_pos M) E)) <= 2 ^ 32.
Proof.
  intros HM HE. rewrite to_i64_sqrt_finite by assumption. cbv zeta.
  set (K := 26 - E / 2). set (m' := M * 2 ^ (E + 2 * K)). set (q := Z.sqrt m').
  assert (HE2 : -26 <= E / 2 <= 5).
  { split; [apply Z.div_le_lower_bound; lia|].
    assert (E / 2 < 6) by (apply Z.div_lt_upper_bound; lia). lia. }
  assert (HK : 21 <= K <= 52) by (unfold K; lia).
  assert (Hs : 52 <= E + 2 * K <= 53).
  { unfold K. pose proof (Z.mod_pos_bound E 2). pose proof (Z.div_mod E 2). lia. }
  assert (Hm' : 0 <= m' < 2 ^ 53 * 2 ^ 53).
  { unfold m'.
    assert (0 < 2 ^ (E + 2 * K)) by (apply Z.pow_pos_nonneg; lia).
    assert (2 ^ (E + 2 * K) <= 2 ^ 53) by (apply Z.pow_le_mono_r; lia).
    split; nia. }
  assert (Hq : 0 <= q < 2 ^ 53).
  { split; [apply Z.sqrt_nonneg | apply Z.sqrt_lt_square; lia]. }
  assert (HP : 2 ^ 21 <= 2 ^ K) by (apply Z.pow_le_mono_r; lia).
  set (Mr := if m' - q * q <=? q then q else q + 1).
  assert (HMr : 0 <= Mr <= 2 ^ 53) by (unfold Mr; destruct (_ <=? _); lia).
  split; [apply Z.div_pos; lia|].
  apply Z.div_le_upper_bound; [lia|].
  assert (2 ^ 21 * 2 ^ 32 <= 2 ^ K * 2 ^ 32) by (apply Z.mul_le_mono_nonneg_r; lia).
  change (2 ^ 21 * 2 ^ 32) with (2 ^ 53) in *. lia.
Qed.

Lemma root_range n :
  0 <= n <= I64.MAX ->
  0 <= to_i64 (sqrt (of_i64 n)) <= 2 ^ 32.
Proof.
  unfold I64.MAX. intros Hn. destruct (Z.lt_ge_cases n (2 ^ 52)) as [Hlt | Hge].
  - rewrite to_i64_sqrt_of_i64 by lia.
    split; [apply Z.sqrt_nonneg|].
    assert (Z.sqrt n < 2 ^ 26) by (apply Z.sqrt_lt_square; lia). lia.
  - destruct (of_i64_rounded n ltac:(lia)) as (M & E & t & -> & HM & Ht & HE & _).
    apply to_i64_sqrt_finite_range; lia.
Qed.

(** The double square root of a perfect square up to the top of the 64-bit
    range is its exact root: the rounding error of the conversion is too
    small to move the root off the integer. *)
Lemma root_of_square k :
  0 <= k -> k * k <= I64.MAX ->
  to_i64 (sqrt (of_i64 (k * k))) = k.
Proof.
  unfold I64.MAX. intros Hk Hmax.
  destruct (Z.lt_ge_cases (k * k) (2 ^ 52)) as [Hlt | Hge].
  { rewrite to_i64_sqrt_of_i64 by lia.
    rewrite <- (Z.abs_eq k) at 1 2 by assumption. rewrite Z.sqrt_square; lia. }
  destruct (of_i64_rounded (k * k) ltac:(lia))
    as (M & E & t & -> & HM & Ht & HE & Hn & Herr).
  rewrite to_i64_sqrt_finite by lia. cbv zeta.
  set (K := 26 - E / 2). set (m' := M * 2 ^ (E + 2 * K)). set (q := Z.sqrt m').
  assert (HE2 : 0 <= E / 2 <= 5).
  { split; [apply Z.div_pos; lia|].
    assert (E / 2 < 6) by (apply Z.div_lt_upper_bound; lia). lia. }
  assert (HK : 21 <= K <= 26) by (unfold K; lia).
  pose proof (Z.mod_pos_bound E 2 ltac:(lia)) as HEm.
  pose proof (Z.div_mod E 2 ltac:(lia)) as HEd.
  set (P := 2 ^ K).
  assert (HP : 0 < P) by (apply Z.pow_pos_nonneg; lia).
  assert (Hm' : m' = M * 2 ^ E * (P * P)).
  { unfold m', P. rewrite <- !Z.pow_add_r, <- Z.mul_assoc, <- Z.pow_add_r by lia.
    do 2 f_equal. lia. }
  (* the error of the conversion, scaled, is below [k] *)
  set (W := 2 ^ (t + K - 1)).
  assert (HW : 0 < W) by (apply Z.pow_pos_nonneg; lia).
  assert (HWk : W < k).
  { apply Z.nle_gt. intros Hle.
    assert (k * k <= W * W) by (apply Z.mul_le_mono_nonneg; lia).
    assert (W * W < 2 ^ (t + 52)); [|lia].
    unfold W. rewrite <- Z.pow_add_r by lia.
    apply Z.pow_lt_mono_r; lia. }
  assert (H2W : 2 ^ t * P = 2 * W).
  { unfold P, W. rewrite <- Z.pow_add_r, <- Z.pow_succ_r by lia. f_equal. lia. }
  set (d := M * 2 ^ E - k * k) in *.
  assert (Hd : Z.abs d * P < k) by nia.
  assert (HdPP : Z.abs (d * (P * P)) < k * P).
  { rewrite Z.abs_mul, (Z.abs_eq (P * P)) by nia. nia. }
  assert (Hm'd : m' = (k * P) * (k * P) + d * (P * P)) by (rewrite Hm'; unfold d; ring).
  set (Kk := k * P) in *.
  assert (HKk : 1 <= Kk) by (unfold Kk; nia).
  pose proof (Z.sqrt_spec m' ltac:(nia)) as Hq. fold q in Hq. unfold Z.succ in Hq.
  assert (Hq0 : 0 <= q) by apply Z.sqrt_nonneg.
  assert (HMr : (if m' - q * q <=? q then q else q + 1) = Kk).
  { destruct (Z.le_gt_cases (Kk * Kk) m') as [Hup | Hdown].
    - assert (q = Kk) by nia. subst q.
      destruct (Z.leb_spec (m' - Z.sqrt m' * Z.sqrt m') (Z.sqrt m')); lia.
    - assert (q = Kk - 1) by nia.
      destruct (Z.leb_spec (m' - q * q) q); nia. }
  rewrite HMr. unfold Kk. apply Z.div_mul. lia.
Qed.

(** The truncated root of a non-negative 64-bit integer is at most
    3037000499, the largest integer whose square fits in 64 bits. *)
Lemma root_below_sqrt_max n :
  0 <= n <= I64.MAX ->
  0 <= to_i64 (sqrt (of_i64 n)) <= 3037000499.
Proof.
  intros Hn. split; [apply root_range; assumption|].
  unfold I64.MAX in Hn.
  destruct (Z.lt_ge_cases n (2 ^ 52)) as [Hlt | Hge].
  { rewrite to_i64_sqrt_of_i64 by lia.
    assert (Z.sqrt n < 2 ^ 26) by (apply Z.sqrt_lt_square; lia). lia. }
  destruct (of_i64_rounded n ltac:(lia))
    as (M & E & t & -> & HM & Ht & HE & Hlo & Herr).
  rewrite to_i64_sqrt_finite by lia. cbv zeta.
  set (K := 26 - E / 2). set (m' := M * 2 ^ (E + 2 * K)). set (q := Z.sqrt m').
  assert (HE2 : 0 <= E / 2 <= 5).
  { split; [apply Z.div_pos; lia|].
    assert (E / 2 < 6) by (apply Z.div_lt_upper_bound; lia). lia. }
  assert (HK : 21 <= K <= 26) by (unfold K; lia).
  pose proof (Z.mod_pos_bound E 2 ltac:(lia)) as HEm.
  pose proof (Z.div_mod E 2 ltac:(lia)) as HEd.
  set (P := 2 ^ K).
  assert (HP : 2 ^ 21 <= P) by (apply Z.pow_le_mono_r; lia).
  assert (Hm' : m' = M * 2 ^ E * (P * P)).
  { unfold m', P. rewrite <- !Z.pow_add_r, <- Z.mul_assoc, <- Z.pow_add_r by lia.
    do 2 f_equal. lia. }
  assert (Ht2 : 2 ^ t <= 2 ^ 11) by (apply Z.pow_le_mono_r; lia).
  assert (HV : 0 <= M * 2 ^ E <= 2 ^ 63 + 2 ^ 10) by lia.
  pose proof (Z.sqrt_spec m' ltac:(nia)) as [Hq _]. fold q in Hq.
  assert (Hq0 : 0 <= q) by apply Z.sqrt_nonneg.
  set (Mr := if m' - q * q <=? q then q else q + 1).
  assert (HMr : 0 <= Mr <= q + 1) by (unfold Mr; destruct (_ <=? _); lia).
  assert (Mr / P < 3037000500); [|lia].
  apply Z.div_lt_upper_bound; [lia|].
  apply Z.nle_gt. intros Hle.
  assert (Hqlo : P * 3037000500 - 1 <= q) by lia.
  assert (Hsq : (P * 3037000500 - 1) * (P * 3037000500 - 1) <= q * q)
    by (apply Z.mul_le_mono_nonneg; lia).
  assert (Hm'hi : m' <= (2 ^ 63 + 2 ^ 10) * (P * P))
    by (rewrite Hm'; apply Z.mul_le_mono_nonneg_r; nia).
  nia.
Qed.
End DoubleRounding.

(** ** The residue table for other moduli *)

(** The reduction of [i*i] to [size_t] is harmless for a modulus up to
    [2^32] and for any divisor of [2^64] (the powers of two). *)
Lemma size_t_square_mod n i :
  0 < n -> n <= 2 ^ 32 \/ (n | 2 ^ 64) -> 0 <= i < n ->
  to_size_t (i * i) mod n = (i * i) mod n.
Proof.
  intros Hn [Hsmall | Hdiv] Hi; unfold to_size_t.
  - rewrite (Z.mod_small (i * i)); [reflexivity|].
    split; [nia|]. change (2 ^ 64) with (2 ^ 32 * 2 ^ 32). nia.
  - apply Z.mod_mod_divide. assumption.
Qed.

(** X1.  [quadratic_residues_mod<n>] returns exactly the quadratic residues
    modulo [n]: for a modulus up to [2^32], or any power of two that
    [size_t] admits, bit [x] is set iff [0 <= x < n] and [x] is the square
    of some integer modulo [n].  No bit outside [0 .. n-1] is ever set, so
    [bitset::set] stays in range, and the wrap-around of [i*i] in [size_t]
    does no harm. *)
Theorem residue_table_exact n x :
  0 < n -> n <= 2 ^ 32 \/ (n | 2 ^ 64) ->
  Z.testbit (quadratic_residues_mod n) x = true <->
  0 <= x < n /\ exists k, x = (k * k) mod n.
Proof.
  intros Hn Hmod. unfold quadratic_residues_mod.
  assert (Hloop : Z.testbit
            (for_range 0 n
               (fun i residues => Z.lor residues (Z.shiftl 1 (to_size_t (i * i) mod n))) 0) x
            = true <-> exists i, 0 <= i < n /\ x = (i * i) mod n).
  { apply (for_range_ind
      (fun j res => Z.testbit res x = true <-> exists i, 0 <= i < j /\ x = (i * i) mod n));
      [lia | |].
    - rewrite Z.testbit_0_l. split; [discriminate|]. intros (i & Hi & _). lia.
    - intros j res Hj IH.
      rewrite (size_t_square_mod n j Hn Hmod Hj).
      rewrite testbit_set_bit by (apply Z.mod_pos_bound; lia).
      rewrite orb_true_iff, IH, Z.eqb_eq. split.
      + intros [Hx | (i & Hi & Hx)]; [exists j | exists i]; split; auto; lia.
      + intros (i & Hi & Hx). destruct (Z.eq_dec i j) as [-> | Hne]; [left; auto|].
        right. exists i. split; [lia | assumption]. }
  rewrite Hloop. split.
  - intros (i & Hi & ->). split; [apply Z.mod_pos_bound; lia | eauto].
  - intros (_ & k & ->). exists (k mod n).
    split; [apply Z.mod_pos_bound; lia | apply Z.mul_mod; lia].
Qed.

Lemma residue_table_exact_witness :
  Z.testbit (quadratic_residues_mod 64) 17 = true <->
  0 <= 17 < 64 /\ exists k, 17 = (k * k) mod 64.
Proof. apply (residue_table_exact 64 17); [lia | left; lia]. Defined.


(** ** Redundant and scaled triples *)

(** X5.  Scaling the ratio: multiplying [a] and [b] by a common factor [k]
    gives the candidate of [(a, b)] at [k*k*c], as long as it fits in 64
    bits.  Pairs with a common factor only repeat candidates. *)
Theorem compute_candidate_scaling a b c k :
  1 <= a -> 1 <= b -> 1 <= c -> 1 <= k ->
  candidate_value (k * a) (k * b) c <= I64.MAX ->
  compute_candidate (k * a) (k * b) c = compute_candidate a b (k * k * c).
Proof.
  intros Ha Hb Hc Hk Hmax.
  assert (Heq : candidate_value (k * a) (k * b) c = candidate_value a b (k * k * c))
    by (unfold candidate_value; ring).
  destruct (compute_candidate_exact (k * a) (k * b) c
              ltac:(nia) ltac:(nia) Hc Hmax) as [_ ->].
  destruct (compute_candidate_exact a b (k * k * c) Ha Hb ltac:(nia)
              ltac:(rewrite <- Heq; assumption)) as [_ ->].
  assumption.
Qed.

Lemma compute_candidate_scaling_witness :
  compute_candidate (5 * 3) (5 * 2) 7 = compute_candidate 3 2 (5 * 5 * 7).
Proof.
  apply (compute_candidate_scaling 3 2 7 5); [lia | lia | lia | lia |].
  vm_compute. discriminate.
Defined.




(** ** The result as a function of the bound *)



(** X8.  The run of [main] (bound [10^12]) finds, below 100000, exactly the
    four squares 9, 10404, 16900 and 97344 of the small instance of the
    problem statement. *)
Theorem main_solutions_below_100000 fuel :
  (Z.to_nat (Z.sqrt BOUND) < fuel)%nat ->
  exists sols,
    search BOUND A_LIMIT fuel = Some sols /\
    forall n, n ∈ sols /\ n < 100000 <-> n ∈ [9; 10404; 16900; 97344].
Proof.
  intros Hfuel.
  assert (HB : BOUND <= 2 ^ 52) by (unfold BOUND; lia).
  destruct (search_terminates BOUND HB A_LIMIT ltac:(lia) fuel Hfuel) as [sols Hrun].
  exists sols. split; [assumption|]. intros n.
  destruct (search_terminates 100000 ltac:(lia) A_LIMIT ltac:(lia) 400%nat
              ltac:(vm_compute; lia)) as [small Hsmall].
  pose proof (search_small A_LIMIT 400%nat small ltac:(unfold A_LIMIT; lia) Hsmall)
    as Hsmall_eq.
  rewrite (search_spec BOUND HB A_LIMIT ltac:(lia) fuel sols Hrun n).
  assert (Hiff : n ∈ small <-> n ∈ [9; 10404; 16900; 97344]).
  { rewrite Hsmall_eq. rewrite !elem_of_union, !elem_of_singleton.
    rewrite !elem_of_cons, elem_of_nil. tauto. }
  rewrite <- Hiff.
  rewrite (search_spec 100000 ltac:(lia) A_LIMIT ltac:(lia) 400%nat small Hsmall n).
  split.
  - intros [(a & b & c & Hb & Ha & Hc & Hn & _ & Hsq) Hlt].
    exists a, b, c. repeat split; (assumption || lia).
  - intros (a & b & c & Hb & Ha & Hc & Hn & Hlt & Hsq).
    split; [|assumption]. exists a, b, c. unfold BOUND.
    repeat split; (assumption || lia).
Qed.

Lemma main_solutions_below_100000_witness :
  exists sols,
    search BOUND A_LIMIT (Z.to_nat 1000001) = Some sols /\
    forall n, n ∈ sols /\ n < 100000 <-> n ∈ [9; 10404; 16900; 97344].
Proof.
  assert (Hfuel : (Z.to_nat (Z.sqrt BOUND) < Z.to_nat 1000001)%nat)
    by (change (Z.sqrt BOUND) with 1000000; lia).
  exact (main_solutions_below_100000 (Z.to_nat 1000001) Hfuel).
Defined.

(** ** What the loops never do *)




(** ** Edge cases of the enumeration *)



(** X11.  With a limit of [a] of 2 or less the enumeration finds nothing
    and never enters the inner loop: for [a = 1] the loop over [b] is
    empty.  The result is the empty set whatever the bound, with no fuel
    at all. *)
Theorem search_empty_range Bound Alimit fuel :
  Alimit <= 2 -> search Bound Alimit fuel = Some ∅.
Proof.
  intros HA. unfold search.
  destruct (Z.le_gt_cases Alimit 1) as [Hle | Hgt].
  - apply for_range_nil. assumption.
  - assert (Alimit = 2) as -> by lia.
    rewrite for_range_cons, for_range_nil by lia.
    unfold b_loop. apply for_range_nil. lia.
Qed.

Lemma search_empty_range_witness : search BOUND 2 0 = Some ∅.
Proof. apply (search_empty_range BOUND 2 0). lia. Defined.

(** ** The number of iterations of the inner loop *)

Section InnerLoopCost.
Variables Bound a b : Z.
Hypothesis HBound : Bound <= 2 ^ 52.
Hypothesis Ha : 1 <= a.
Hypothesis Hb : 1 <= b.
Hypothesis Hfirst : candidate_value a b 1 <= I64.MAX.

Lemma below_bound_sqrt_quotient c :
  1 <= c -> candidate_value a b c < Bound ->
  c <= Z.sqrt (Bound / (a ^ 3 * b)).
Proof.
  intros Hc Hlt.
  assert (HD : 0 < a ^ 3 * b) by (apply Z.mul_pos_pos; [apply Z.pow_pos_nonneg|]; lia).
  assert (Hcb : 0 < c * b ^ 2) by (apply Z.mul_pos_pos; [|apply Z.pow_pos_nonneg]; lia).
  unfold candidate_value in Hlt.
  assert (Hle : c * c <= Bound / (a ^ 3 * b)).
  { apply Z.div_le_lower_bound; [assumption|]. nia. }
  apply Z.sqrt_le_square; [|lia|assumption].
  apply Z.le_trans with (c * c); [nia | assumption].
Qed.

Lemma c_loop_cost fuel : forall c sols,
  reached_c Bound a b c ->
  (Z.to_nat (Z.sqrt (Bound / (a ^ 3 * b)) + 1 - c) < fuel)%nat ->
  is_Some (c_loop Bound fuel a b c sols).
Proof.
  induction fuel as [|fuel IH]; intros c sols Hr Hfuel; [lia|].
  rewrite c_loop_step.
  destruct (reached_c_exact Bound a b HBound Ha Hb Hfirst c Hr) as [_ ->].
  destruct (Z.leb_spec Bound (candidate_value a b c)) as [Hge | Hlt]; [eauto|].
  destruct (reached_c_spec Bound a b HBound Ha Hb Hfirst c Hr) as (Hc & _).
  pose proof (below_bound_sqrt_quotient c Hc Hlt) as Hsqrt.
  destruct (below_bound_range Bound a b HBound Ha Hb c Hc Hlt) as [_ ->].
  apply IH; [apply reached_c_succ; assumption | lia].
Qed.
End InnerLoopCost.

(** X12.  For a pair [(a, b)] of the enumeration the inner loop runs its
    body at most [floor (sqrt (Bound / (a³b))) + 1] times: that many
    iterations are enough for it to break. *)
Theorem inner_loop_iterations Bound a b fuel (sols : gset Z) :
  Bound <= BOUND -> 1 <= b < a -> a < A_LIMIT ->
  (Z.to_nat (Z.sqrt (Bound / (a ^ 3 * b))) < fuel)%nat ->
  is_Some (c_loop Bound fuel a b 1 sols).
Proof.
  intros HB Hb Ha Hfuel.
  apply (c_loop_cost Bound a b ltac:(unfold BOUND in HB; lia) ltac:(lia) ltac:(lia)
           (first_candidate_fits a b Hb ltac:(lia)) fuel 1 sols (reached_first _ _ _)).
  replace (Z.sqrt (Bound / (a ^ 3 * b)) + 1 - 1) with (Z.sqrt (Bound / (a ^ 3 * b)))
    by lia.
  assumption.
Qed.

Lemma inner_loop_iterations_witness :
  is_Some (c_loop BOUND 1001 100 1 1 ∅).
Proof.
  apply (inner_loop_iterations BOUND 100 1 1001 ∅);
    [lia | lia | unfold A_LIMIT; lia | vm_compute; lia].
Defined.

(** ** The printed roots *)

(** X14.  The lines [main] prints before the blank line are pairwise
    distinct roots, each between 3 and 999999, and the sum printed on the
    last line is the sum of their squares. *)
Theorem main_output_roots iter fuel :
  (forall s, iter s ≡ₚ elements s) ->
  (Z.to_nat (Z.sqrt BOUND) < fuel)%nat ->
  exists roots,
    main iter fuel =
      Some (unlines (map pretty roots
                     ++ [EmptyString; pretty (sumZ (map (fun r => r * r) roots))]),
            0) /\
    NoDup roots /\
    Forall (fun r => 3 <= r < 1000000) roots.
Proof.
  intros Hiter Hfuel.
  assert (HB : BOUND <= 2 ^ 52) by (unfold BOUND; lia).
  destruct (search_terminates BOUND HB A_LIMIT ltac:(lia) fuel Hfuel) as [sols Hrun].
  pose proof (search_spec BOUND HB A_LIMIT ltac:(lia) fuel sols Hrun) as Hspec.
  assert (Hmem : forall x, x ∈ iter sols ->
            9 <= x < 1000000 * 1000000 /\ Z.sqrt x * Z.sqrt x = x).
  { intros x Hx. rewrite (Hiter sols) in Hx. apply elem_of_elements in Hx.
    apply Hspec in Hx as (a & b & c & Hb & _ & Hc & Hn & Hlt & Hsq).
    unfold BOUND in Hlt.
    assert (9 <= x).
    { subst x. unfold candidate_value.
      assert (8 <= a ^ 3) by (change 8 with (2 ^ 3); apply Z.pow_le_mono_l; lia).
      assert (1 <= b ^ 2) by nia. assert (1 <= c ^ 2) by nia.
      assert (8 <= c ^ 2 * a ^ 3) by nia.
      assert (c ^ 2 * a ^ 3 <= c ^ 2 * a ^ 3 * b) by nia.
      nia. }
    split; [lia|]. apply sqrt_square_iff; [lia | assumption]. }
  exists (map Z.sqrt (iter sols)).
  split; [|split].
  - rewrite (main_report iter fuel sols Hiter Hrun). unfold expected_output.
    rewrite !map_map. rewrite <- (sumZ_perm _ _ (Hiter sols)).
    assert (Hsq : forall l, (forall x, x ∈ l -> Z.sqrt x * Z.sqrt x = x) ->
              sumZ l = sumZ (map (fun x => Z.sqrt x * Z.sqrt x) l)).
    { induction l as [|x l IH]; intros Hl; [reflexivity|].
      simpl. rewrite <- IH.
      - rewrite (Hl x) by (apply elem_of_cons; auto). reflexivity.
      - intros y Hy. apply Hl, elem_of_cons. auto. }
    rewrite <- (Hsq (iter sols)); [reflexivity|].
    intros x Hx. apply (Hmem x Hx).
  - apply NoDup_fmap_2_strong.
    + intros x y Hx Hy Heq.
      destruct (Hmem x Hx) as [_ <-], (Hmem y Hy) as [_ <-]. congruence.
    + rewrite (Hiter sols). apply NoDup_elements.
  - apply Forall_forall. intros r Hr.
    apply list_elem_of_fmap in Hr as (x & -> & Hx).
    destruct (Hmem x Hx) as [Hrange _]. split.
    + apply Z.sqrt_le_square; lia.
    + apply Z.sqrt_lt_square; lia.
Qed.

Lemma main_output_roots_witness :
  exists roots,
    main elements (Z.to_nat 1000001) =
      Some (unlines (map pretty roots
                     ++ [EmptyString; pretty (sumZ (map (fun r => r * r) roots))]),
            0) /\
    NoDup roots /\
    Forall (fun r => 3 <= r < 1000000) roots.
Proof.
  assert (Hfuel : (Z.to_nat (Z.sqrt BOUND) < Z.to_nat 1000001)%nat)
    by (change (Z.sqrt BOUND) with 1000000; lia).
  exact (main_output_roots elements (Z.to_nat 1000001) (fun s => reflexivity _) Hfuel).
Defined.

(** ** The classifier beyond the bound of [main] *)

(** X3.  On the whole non-negative range of [i64], far beyond the bound of
    [main], the classifier is exact: [is_perfect_square n] is true iff [n]
    is a perfect square, and [root*root] never overflows.  The double
    conversion rounds [n] from [2^53] on, but never enough to move the
    root of a square off its integer. *)
Theorem is_perfect_square_i64 n :
  0 <= n <= I64.MAX ->
  let root := Double.to_i64 (Double.sqrt (Double.of_i64 n)) in
  0 <= root <= 3037000499 /\
  root_check_checked n = Some (root * root) /\
  (is_square n -> root * root = n) /\
  (is_perfect_square n = true <-> is_square n).
Proof.
  intros Hn root. pose proof (root_below_sqrt_max n Hn) as Hroot. fold root in Hroot.
  assert (Hsquare : is_square n -> root * root = n).
  { intros [k Hk].
    assert (Hk' : n = Z.abs k * Z.abs k) by (rewrite Z.abs_square; assumption).
    assert (Hr : root = Z.abs k).
    { unfold root. rewrite Hk'. apply root_of_square; lia. }
    rewrite Hr. lia. }
  assert (Hsq : I64.MIN <= root * root <= I64.MAX).
  { unfold I64.MIN, I64.MAX in *. nia. }
  split; [assumption|].
  unfold root_check_checked, is_perfect_square. fold root.
  destruct (checked_mul_in_range root root Hsq) as [-> ->].
  split; [reflexivity|]. split; [assumption|]. split.
  - destruct (Z.testbit _ _); simpl; [|discriminate].
    intros H. apply Z.eqb_eq in H. exists root. auto.
  - intros Hs. rewrite (is_square_residue n Hs). simpl. apply Z.eqb_eq. auto.
Qed.

Lemma is_perfect_square_i64_witness :
  let root := Double.to_i64 (Double.sqrt (Double.of_i64 9223372030926249001)) in
  0 <= root <= 3037000499 /\
  root_check_checked 9223372030926249001 = Some (root * root) /\
  (is_square 9223372030926249001 -> root * root = 9223372030926249001) /\
  (is_perfect_square 9223372030926249001 = true <->
   is_square 9223372030926249001).
Proof. apply (is_perfect_square_i64 9223372030926249001). unfold I64.MAX. lia. Defined.

(** X4.  The residue table is a pure optimisation: for every non-negative
    [i64] the classifier returns what the fallback test [root*root == n]
    alone would return. *)
Theorem residue_filter_is_optimisation n :
  0 <= n <= I64.MAX ->
  is_perfect_square n =
    (I64.mul (Double.to_i64 (Double.sqrt (Double.of_i64 n)))
             (Double.to_i64 (Double.sqrt (Double.of_i64 n))) =? n).
Proof.
  intros Hn. pose proof (root_below_sqrt_max n Hn) as Hroot.
  unfold is_perfect_square.
  set (root := Double.to_i64 (Double.sqrt (Double.of_i64 n))) in *.
  destruct (Z.testbit quadratic_residues (to_size_t n mod MODULUS)) eqn:Hbit;
    [reflexivity|].
  simpl. symmetry. apply Z.eqb_neq. intros Heq.
  destruct (checked_mul_in_range root root) as [_ Hm];
    [unfold I64.MIN, I64.MAX; nia|].
  assert (Hs : is_square n) by (exists root; rewrite <- Heq, Hm; reflexivity).
  rewrite (is_square_residue n Hs) in Hbit. discriminate.
Qed.

Lemma residue_filter_is_optimisation_witness :
  is_perfect_square 58 =
    (I64.mul (Double.to_i64 (Double.sqrt (Double.of_i64 58)))
             (Double.to_i64 (Double.sqrt (Double.of_i64 58))) =? 58).
Proof. apply (residue_filter_is_optimisation 58). unfold I64.MAX. lia. Defined.

(** ** Independence of the pairs *)

(** X13.  The inner loop treats the set it is given as an accumulator
    only: running it on [sols] gives what running it on the empty set
    gives, united with [sols].  The pairs [(a, b)] do not influence each
    other. *)
Theorem c_loop_union Bound fuel a b : forall c (sols : gset Z),
  c_loop Bound fuel a b c sols =
    (fun found => found ∪ sols) <$> c_loop Bound fuel a b c ∅.
Proof.
  assert (Hgen : forall c (X sols : gset Z),
            c_loop Bound fuel a b c (X ∪ sols) =
              (fun found => found ∪ sols) <$> c_loop Bound fuel a b c X).
  { induction fuel as [|fuel IH]; intros c X sols; [reflexivity|].
    rewrite !c_loop_step.
    destruct (Bound <=? compute_candidate a b c); [reflexivity|].
    destruct (is_perfect_square (compute_candidate a b c)).
    - rewrite (assoc_L (∪)). apply IH.
    - apply IH. }
  intros c sols. rewrite <- (Hgen c ∅ sols). f_equal.
  rewrite (left_id_L ∅ (∪)). reflexivity.
Qed.
